(** * Build recommender (Markov-style item advisor)

    A shallow embedding of the item advisor of [new version/markov_trainer.py]
    and [new version/marko.py]: the final-item filter, the training pass that
    folds every participant's build sequence into the two transition tables,
    the greedy query, and the loading of a persisted brain.

    Modelling conventions.
    - A Python [dict] is an insertion-ordered association list ([dict K V]):
      [max] and [sorted] walk a dictionary in insertion order, and that order
      decides the ties of the greedy query.
    - Weights are Python floats.  In memories trained from empty ones they
      are only ever sums of [3.0] and [0.5]: multiples of one half, which
      binary64 adds without rounding below 2^52.  They are modelled as
      rationals kept in lowest terms ([Qred] after every addition), which is
      the float's value in such memories; a score beyond 2^52 would round
      in Python where the model does not, so the scores of whole training
      passes are stated for memories trained from empty ones.
    - The records of a match file are typed: every key the trainer reads with
      [p['...']] is a field.  A file that cannot be opened or parsed is a
      corpus entry [None]; the trainer's [try ... except: pass] skips it.
    - A catalog entry always has [gold.total] (as every Data Dragon entry
      does); [name], [tags] and [into] are read with [.get] and may be absent.
    - Of the printed output only the [Item i: ...] lines are kept, each as
      the three values it is formatted from: rank, display name and score.
      The text around them (which differs between the two advisors) and the
      rounding of the score to one decimal by [{score:.1f}] are not
      modelled. *)

From Stdlib Require Import ZArith QArith Qreduction String List Sorted Lia Lqa.
From stdpp Require Import base option list strings pretty.

Open Scope string_scope.
Open Scope list_scope.

(** [length] is the length of a list throughout. *)
Abbreviation length := List.length.

(** ** Insertion-ordered dictionaries *)

Section dict.
Context {K V : Type} `{EqDecision K}.

(** [d.get(k)] *)
Fixpoint get (d : list (K * V)) (k : K) : option V :=
  match d with
  | [] => None
  | (k', v) :: d' => if decide (k = k') then Some v else get d' k
  end.

(** [d[k] = v]: an existing key keeps its position, a new key goes last. *)
Fixpoint set_item (d : list (K * V)) (k : K) (v : V) : list (K * V) :=
  match d with
  | [] => [(k, v)]
  | (k', v') :: d' =>
      if decide (k = k') then (k, v) :: d' else (k', v') :: set_item d' k v
  end.

(** [d[k]] on a [defaultdict] whose factory returns [dflt]: the value read. *)
Definition getitem_default (dflt : V) (d : list (K * V)) (k : K) : V :=
  default dflt (get d k).

(** [d[k]] on a [defaultdict]: the dictionary after the read (a missing key
    is inserted with the factory's value). *)
Definition touch (dflt : V) (d : list (K * V)) (k : K) : list (K * V) :=
  match get d k with
  | Some _ => d
  | None => d ++ [(k, dflt)]
  end.

Definition keys (d : list (K * V)) : list K := d.*1.
End dict.

Abbreviation dict K V := (list (K * V)) (only parsing).

(** Python truthiness of a dictionary or of an optional one. *)
Definition truthy {A : Type} (l : list A) : bool :=
  match l with [] => false | _ :: _ => true end.

Definition truthy_opt {A : Type} (o : option (list A)) : bool :=
  match o with Some l => truthy l | None => false end.

(** ** Item catalog and the final-item filter *)

Record item_info := {
  name : option string;          (* info.get('name', ...) *)
  tags : list string;            (* info.get('tags', []) *)
  into : option (list string);   (* info.get('into') *)
  gold_total : Z                 (* info['gold']['total'] *)
}.

Definition catalog := dict string item_info.

Definition is_final_item (item_id : string) (item_data_map : catalog) : bool :=
  match get item_data_map item_id with
  | None => false
  | Some info =>
      if bool_decide ("Boots" ∈ tags info) && negb (truthy_opt (into info))
      then true
      else if truthy_opt (into info) || (gold_total info <? 1600)%Z
      then false
      else true
  end.

(** [get_item_name]: [item_data.get(item_id, {}).get('name', f"ID {item_id}")] *)
Definition get_item_name (item_data : catalog) (item_id : string) : string :=
  match get item_data item_id with
  | Some info => default ("ID " +:+ item_id) (name info)
  | None => "ID " +:+ item_id
  end.

(** ** Match records *)

Record purchase := {
  itemId : Z;
  type : string;        (* ITEM_PURCHASED, ITEM_SOLD, ITEM_DESTROYED, ITEM_UNDO *)
  timestamp : Z
}.

Record participant := {
  championName : string;
  teamId : Z;
  lane : string;
  win : bool;
  item_purchases : list purchase
}.

(** The [participants] of one match file; [None] is a file that fails to load. *)
Definition match_file := option (list participant).

(** ** Transition tables *)

Definition successors := dict string Q.          (* next item -> score *)
Definition transitions := dict string successors.  (* current item -> ... *)
Definition general_table := dict string transitions.           (* champion *)
Definition specific_table := dict string (dict string transitions). (* champion, enemy *)

Definition START : string := "START".

Definition known_lanes : list string :=
  ["TOP"; "JUNGLE"; "MIDDLE"; "BOTTOM"; "UTILITY"].

(** The [for opp in participants: ... break] scan for the direct opponent. *)
Fixpoint find_opponent (my_team : Z) (my_lane : string)
    (participants : list participant) : option participant :=
  match participants with
  | [] => None
  | opp :: rest =>
      if negb (teamId opp =? my_team)%Z && bool_decide (lane opp = my_lane)
      then Some opp
      else find_opponent my_team my_lane rest
  end.

Definition enemy_champ_of (participants : list participant) (p : participant)
    : string :=
  match find_opponent (teamId p) (lane p) participants with
  | Some opponent => championName opponent
  | None => "Unknown"
  end.

(** The purchase loop: final items only, first occurrence only.
    [pretty] is [str] on an integer [itemId]; [processed_ids] is the set of
    identifiers already appended.  The [type] of an event is never read. *)
Fixpoint scan_purchases (item_data : catalog) (purchases : list purchase)
    (build_sequence : list string) (processed_ids : list string) : list string :=
  match purchases with
  | [] => build_sequence
  | pu :: rest =>
      let i_id := pretty (itemId pu) in
      if negb (is_final_item i_id item_data)
      then scan_purchases item_data rest build_sequence processed_ids
      else if bool_decide (i_id ∈ processed_ids)
      then scan_purchases item_data rest build_sequence processed_ids
      else scan_purchases item_data rest (build_sequence ++ [i_id])
             (i_id :: processed_ids)
  end.

Definition build_sequence_of (item_data : catalog) (p : participant)
    : list string :=
  scan_purchases item_data (item_purchases p) [START] [].

Definition weight_of (w : bool) : Q := if w then 3%Q else (1 # 2)%Q.

(** [row[next_node] += weight] on a [defaultdict(float)].  The sum is exact,
    as the float sum is for the multiples of one half below 2^52 that
    training from empty memories produces. *)
Definition add_score (row : successors) (next_node : string) (weight : Q)
    : successors :=
  set_item row next_node (Qred (getitem_default 0%Q row next_node + weight)).

(** [t[current_node][next_node] += weight] *)
Definition add_edge (t : transitions) (current_node next_node : string)
    (weight : Q) : transitions :=
  set_item t current_node
    (add_score (getitem_default [] t current_node) next_node weight).

Definition learn_general (g : general_table) (my_champ : string)
    (current_node next_node : string) (weight : Q) : general_table :=
  set_item g my_champ
    (add_edge (getitem_default [] g my_champ) current_node next_node weight).

Definition learn_specific (s : specific_table) (my_champ enemy_champ : string)
    (current_node next_node : string) (weight : Q) : specific_table :=
  set_item s my_champ
    (set_item (getitem_default [] s my_champ) enemy_champ
       (add_edge (getitem_default [] (getitem_default [] s my_champ) enemy_champ)
          current_node next_node weight)).

(** [for i in range(len(build_sequence) - 1)]: one update of both tables per
    consecutive pair. *)
Fixpoint learn_sequence (my_champ enemy_champ : string) (weight : Q)
    (build_sequence : list string) (mem : specific_table * general_table)
    : specific_table * general_table :=
  match build_sequence with
  | current_node :: ((next_node :: _) as rest) =>
      learn_sequence my_champ enemy_champ weight rest
        (learn_specific mem.1 my_champ enemy_champ current_node next_node weight,
         learn_general mem.2 my_champ current_node next_node weight)
  | _ => mem
  end.

(** The body of [for p in participants]. *)
Definition train_participant (item_data : catalog)
    (participants : list participant) (mem : specific_table * general_table)
    (p : participant) : specific_table * general_table :=
  if negb (bool_decide (lane p ∈ known_lanes)) then mem
  else
    learn_sequence (championName p) (enemy_champ_of participants p)
      (weight_of (win p)) (build_sequence_of item_data p) mem.

(** The body of [for filepath in files]. *)
Definition train_file (item_data : catalog)
    (mem : specific_table * general_table) (f : match_file)
    : specific_table * general_table :=
  match f with
  | None => mem
  | Some participants =>
      foldl (train_participant item_data participants) mem participants
  end.

Definition train_files (item_data : catalog) (files : list match_file)
    (mem : specific_table * general_table) : specific_table * general_table :=
  foldl (train_file item_data) mem files.

(** ** The greedy walk *)

(** [a < b] on scores *)
Definition Qltb (a b : Q) : bool := negb (Qle_bool b a).

(** [max(next_options, key=next_options.get)]: the dictionary is walked in
    insertion order and the running best is replaced only by a strictly
    greater score, so the first key of maximal score wins. *)
Fixpoint max_item (best : string * Q) (rest : list (string * Q)) : string * Q :=
  match rest with
  | [] => best
  | x :: rest' => max_item (if Qltb best.2 x.2 then x else best) rest'
  end.

(** [sorted(next_options.items(), key=lambda x: x[1], reverse=True)]: a stable
    sort into decreasing score (entries of equal score keep their order). *)
Fixpoint insert_desc (x : string * Q) (l : list (string * Q))
    : list (string * Q) :=
  match l with
  | [] => [x]
  | y :: l' => if Qltb x.2 y.2 then y :: insert_desc x l' else x :: y :: l'
  end.

Definition sorted_desc (l : list (string * Q)) : list (string * Q) :=
  foldr insert_desc [] l.

(** [for item, s in sorted_opts: if item not in visited: ... break] *)
Fixpoint first_unvisited (visited : list string)
    (sorted_opts : list (string * Q)) : option (string * Q) :=
  match sorted_opts with
  | [] => None
  | (item, s) :: rest =>
      if bool_decide (item ∈ visited) then first_unvisited visited rest
      else Some (item, s)
  end.

(** The local variables of the walk, and for every [Item i: ...] line
    printed the values handed to its format string: the rank [i], the
    display name and the score (before [.1f] rounds it for display). *)
Record walk := {
  current_item : string;
  build_path : list string;
  visited : list string;
  printed : list (nat * string * Q)
}.

Definition start_walk : walk :=
  {| current_item := START; build_path := []; visited := []; printed := [] |}.

Definition advance (item_data : catalog) (i : nat) (w : walk)
    (best_next : string) (score : Q) : walk :=
  {| current_item := best_next;
     build_path := build_path w ++ [best_next];
     visited := best_next :: visited w;
     printed := printed w ++ [(i, get_item_name item_data best_next, score)] |}.

(** [for i in range(first, first + rounds)]: both advisors run this loop
    and differ only in how a round chooses the next item ([choose] returns
    [None] where the loop body executes [break]). *)
Fixpoint walk_rounds (choose : transitions → walk → option (string * Q))
    (item_data : catalog) (t : transitions) (first rounds : nat) (w : walk)
    : walk :=
  match rounds with
  | O => w
  | S rounds' =>
      match choose t w with
      | None => w
      | Some (best_next, score) =>
          walk_rounds choose item_data t (S first) rounds'
            (advance item_data first w best_next score)
      end
  end.

Module MarkovTrainer.

Record brain := {
  item_data : catalog;
  specific_memory : specific_table;   (* a defaultdict at every level *)
  general_memory : general_table
}.

(** [__init__]: the catalog is fetched, both memories start empty. *)
Definition init (item_data : catalog) : brain :=
  {| item_data := item_data; specific_memory := []; general_memory := [] |}.

Definition train (self : brain) (files : list match_file) : brain :=
  let mem :=
    train_files (item_data self) files
      (specific_memory self, general_memory self) in
  {| item_data := item_data self;
     specific_memory := mem.1;
     general_memory := mem.2 |}.

(** The choice made by one round of the loop; [None] is a [break]. *)
Definition choose (t : transitions) (w : walk) : option (string * Q) :=
  match get t (current_item w) with
  | None => None
  | Some next_options =>
      match next_options with
      | [] => None
      | first :: others =>
          let best := max_item first others in
          if bool_decide (best.1 ∈ visited w)
          then first_unvisited (visited w) (sorted_desc next_options)
          else Some best
      end
  end.

Definition walk_loop : catalog → transitions → nat → nat → walk → walk :=
  walk_rounds choose.

Record outcome := {
  returned : option (list string);      (* [None] is Python's [None] *)
  output : list (nat * string * Q);
  after : brain
}.

(** [self.specific_memory[my_champ].get(enemy_champ)], the value read.
    An [enemy_champ] of [None] is no key of the table. *)
Definition specific_data_of (self : brain) (my_champ : string)
    (enemy_champ : option string) : option transitions :=
  enemy ← enemy_champ;
  get (getitem_default [] (specific_memory self) my_champ) enemy.

(** [specific_data and len(specific_data["START"]) > 0] *)
Definition use_specific (specific_data : option transitions) : bool :=
  match specific_data with
  | Some sd => truthy sd && truthy (getitem_default [] sd START)
  | None => false
  end.

(** The specific memory after the reads of the query: indexing a
    [defaultdict] inserts a missing key.  [self.specific_memory[my_champ]]
    is always evaluated; [specific_data["START"]] only when
    [specific_data] is a non-empty dictionary. *)
Definition specific_after_reads (self : brain) (my_champ : string)
    (enemy_champ : option string) : specific_table :=
  let s1 := touch [] (specific_memory self) my_champ in
  match enemy_champ with
  | None => s1
  | Some enemy =>
      let row := getitem_default [] s1 my_champ in
      match get row enemy with
      | Some sd =>
          if truthy sd
          then set_item s1 my_champ (set_item row enemy (touch [] sd START))
          else s1
      | None => s1
      end
  end.

(** The table the walk runs on: the matchup's own when it has an edge
    leaving [START], the champion's general one otherwise. *)
Definition select_transitions (self : brain) (my_champ : string)
    (enemy_champ : option string) : option transitions :=
  let specific_data := specific_data_of self my_champ enemy_champ in
  if use_specific specific_data then specific_data
  else get (general_memory self) my_champ.

Definition recommend_build (self : brain) (my_champ : string)
    (enemy_champ : option string) : outcome :=
  let self' :=
    {| item_data := item_data self;
       specific_memory := specific_after_reads self my_champ enemy_champ;
       general_memory := general_memory self |} in
  match select_transitions self my_champ enemy_champ with
  | None => {| returned := None; output := []; after := self' |}
  | Some t =>
      if negb (truthy t)
      then {| returned := None; output := []; after := self' |}
      else
        let w := walk_loop (item_data self) t 1 6 start_walk in
        {| returned := Some (build_path w);
           output := printed w;
           after := self' |}
  end.

End MarkovTrainer.

Module Marko.

Local Unset Elimination Schemes.

(** A value produced by [json.load]; an object is the parsed dictionary. *)
Inductive json :=
| JNull
| JBool (b : bool)
| JNum (q : Q)
| JStr (s : string)
| JArr (items : list json)
| JObj (fields : list (string * json)).

Local Set Elimination Schemes.

(** [BRAIN_FILE] on disk: absent, or present with what [open] followed by
    [json.load] yields ([None] when either raises). *)
Inductive brain_file :=
| Absent
| Present (contents : option json).

(** The memories are plain dictionaries, replaced by whatever was loaded. *)
Record brain := {
  item_data : catalog;
  specific_memory : json;
  general_memory : json
}.

Definition init (item_data : catalog) : brain :=
  {| item_data := item_data;
     specific_memory := JObj [];
     general_memory := JObj [] |}.

(** [data[key]] for a string key; [None] when Python raises ([KeyError] on
    an object without the key, [TypeError] on any other value). *)
Definition subscript (data : json) (key : string) : option json :=
  match data with
  | JObj fields => get fields key
  | _ => None
  end.

(** [load_brain]: the two assignments run one after the other inside the
    [try]; an exception in the second leaves the first done. *)
Definition load_brain (self : brain) (file : brain_file) : bool * brain :=
  match file with
  | Absent => (false, self)
  | Present None => (false, self)
  | Present (Some data) =>
      match subscript data "specific" with
      | None => (false, self)
      | Some s =>
          let self1 :=
            {| item_data := item_data self;
               specific_memory := s;
               general_memory := general_memory self |} in
          match subscript data "general" with
          | None => (false, self1)
          | Some g =>
              (true,
               {| item_data := item_data self1;
                  specific_memory := specific_memory self1;
                  general_memory := g |})
          end
      end
  end.

(** [json.loads(json.dumps(temp))] on the training tables. *)
Definition json_of_successors (d : successors) : json :=
  JObj ((λ kv, (kv.1, JNum kv.2)) <$> d).

Definition json_of_transitions (t : transitions) : json :=
  JObj ((λ kv, (kv.1, json_of_successors kv.2)) <$> t).

Definition json_of_general (g : general_table) : json :=
  JObj ((λ kv, (kv.1, json_of_transitions kv.2)) <$> g).

Definition json_of_specific (s : specific_table) : json :=
  JObj ((λ kv, (kv.1, json_of_general kv.2)) <$> s).

(** [save_brain]: what [BRAIN_FILE] holds afterwards. *)
Definition save_brain (self : brain) : brain_file :=
  Present (Some (JObj [("specific", specific_memory self);
                       ("general", general_memory self)])).

(** [train]: the tables are rebuilt from empty temporaries, stored, saved. *)
Definition train (self : brain) (files : list match_file)
    : brain * brain_file :=
  let temp := train_files (item_data self) files ([], []) in
  let self' :=
    {| item_data := item_data self;
       specific_memory := json_of_specific temp.1;
       general_memory := json_of_general temp.2 |} in
  (self', save_brain self').

(** The choice made by one round of [_print_path]; [None] is a [break]
    (also taken when the item found is the empty string, which is falsy). *)
Definition choose (t : transitions) (w : walk) : option (string * Q) :=
  match get t (current_item w) with
  | None => None
  | Some next_options =>
      if negb (truthy next_options) then None
      else
        match first_unvisited (visited w) (sorted_desc next_options) with
        | Some (best_next, score) =>
            if bool_decide (best_next = "") then None
            else Some (best_next, score)
        | None => None
        end
  end.

Definition print_loop : catalog → transitions → nat → nat → walk → walk :=
  walk_rounds choose.

(** [_print_path] returns nothing; its result here is the final state of
    its locals, whose [printed] field lists the values of the lines it
    wrote and whose [build_path] lists the items in the order they were
    visited. *)
Definition _print_path (item_data : catalog) (t : transitions) : walk :=
  print_loop item_data t 1 6 start_walk.

End Marko.

(** ** Counting the observed transitions *)

(** [follows a b seq]: [b] comes immediately after [a] somewhere in [seq]. *)
Fixpoint follows (a b : string) (seq : list string) : bool :=
  match seq with
  | x :: ((y :: _) as rest) =>
      (bool_decide (x = a) && bool_decide (y = b)) || follows a b rest
  | _ => false
  end.

(** One trained participant: champion, enemy, outcome and build sequence. *)
Record observation := {
  obs_champ : string;
  obs_enemy : string;
  obs_win : bool;
  obs_sequence : list string
}.

Definition observe (item_data : catalog) (participants : list participant)
    (p : participant) : observation :=
  {| obs_champ := championName p;
     obs_enemy := enemy_champ_of participants p;
     obs_win := win p;
     obs_sequence := build_sequence_of item_data p |}.

(** The participants a training pass learns from, in the order it meets
    them: those of the readable files whose lane is one of the five. *)
Definition observations (item_data : catalog) (files : list match_file)
    : list observation :=
  files ≫= λ f,
    match f with
    | None => []
    | Some participants =>
        observe item_data participants <$>
          filter (λ p, lane p ∈ known_lanes) participants
    end.

(** Number of build sequences of [my_champ] with outcome [w] in which
    [next_node] immediately follows [current_node]. *)
Definition count_general (obs : list observation) (my_champ : string)
    (current_node next_node : string) (w : bool) : nat :=
  length (filter (λ o, obs_champ o = my_champ ∧ obs_win o = w
                       ∧ follows current_node next_node (obs_sequence o) = true)
            obs).

(** The same, restricted to the sequences played against [enemy_champ]. *)
Definition count_specific (obs : list observation)
    (my_champ enemy_champ : string) (current_node next_node : string)
    (w : bool) : nat :=
  count_general (filter (λ o, obs_enemy o = enemy_champ) obs)
    my_champ current_node next_node w.

(** The score stored on an edge; an edge that is not stored counts as [0]. *)
Definition edge (t : transitions) (current_node next_node : string) : Q :=
  getitem_default 0%Q (getitem_default [] t current_node) next_node.

Definition general_edge (g : general_table) (my_champ : string)
    (current_node next_node : string) : Q :=
  edge (getitem_default [] g my_champ) current_node next_node.

Definition specific_edge (s : specific_table) (my_champ enemy_champ : string)
    (current_node next_node : string) : Q :=
  edge (getitem_default [] (getitem_default [] s my_champ) enemy_champ)
    current_node next_node.

(** ** A small corpus

    The catalog has a component (1000, builds into 2001), two final items
    (2001 at 1800 gold, 2003 at 2000 gold) and final boots (2002).  Garen
    wins one game against Darius and loses another; the middle file of the
    corpus cannot be read. *)

Module Demo.

Definition entry (n : string) (t : list string) (i : option (list string))
    (g : Z) : item_info :=
  {| name := Some n; tags := t; into := i; gold_total := g |}.

Definition item_data : catalog :=
  [("1000", entry "Long Sword Kit" [] (Some ["2001"]) 1000);
   ("2001", entry "Trinity Force" [] None 1800);
   ("2002", entry "Plated Steelcaps" ["Boots"] None 1200);
   ("2003", entry "Sterak's Gage" [] (Some []) 2000)].

Definition event (ty : string) (id : Z) : purchase :=
  {| itemId := id; type := ty; timestamp := 0 |}.

Definition buy : Z → purchase := event "ITEM_PURCHASED".

Definition player (c : string) (team : Z) (l : string) (w : bool)
    (evs : list purchase) : participant :=
  {| championName := c; teamId := team; lane := l; win := w;
     item_purchases := evs |}.

Definition match_a : match_file :=
  Some [player "Garen" 100 "TOP" true [buy 1000; buy 2001; buy 2002];
        player "Darius" 200 "TOP" false [buy 2003]].

Definition match_b : match_file :=
  Some [player "Darius" 200 "TOP" true [];
        player "Garen" 100 "TOP" false [buy 2001; buy 2003; buy 2001]].

Definition corpus : list match_file := [match_a; None; match_b].

Definition trained : MarkovTrainer.brain :=
  MarkovTrainer.train (MarkovTrainer.init item_data) corpus.


(** A game whose only event on a final item is the sale of an item that was
    never bought (an item received in game, for instance). *)
Definition seller : list participant :=
  [player "Garen" 100 "TOP" true [event "ITEM_SOLD" 2001];
   player "Darius" 200 "TOP" false []].

(** A snapshot that holds the specific table only. *)
Definition partial_snapshot : Marko.brain_file :=
  Marko.Present
    (Some (Marko.JObj [("specific", Marko.JObj [("Garen", Marko.JObj [])])])).

Definition loaded : Marko.brain :=
  (Marko.train (Marko.init item_data) corpus).1.

End Demo.

(** The edges leaving [START] in the table kept for one matchup (none when
    the matchup has no table). *)
Definition specific_start_edges (s : specific_table)
    (my_champ enemy_champ : string) : successors :=
  match get (getitem_default [] s my_champ) enemy_champ with
  | Some sd => getitem_default [] sd START
  | None => []
  end.

(** What the query returns when it walks table [t]. *)
Definition walk_result (item_data : catalog) (t : option transitions)
    : option (list string) :=
  match t with
  | Some ((_ :: _) as t') =>
      Some (build_path (MarkovTrainer.walk_loop item_data t' 1 6 start_walk))
  | _ => None
  end.

(** ** Greedy paths *)

(** [b], with score [s], is a best successor among those not yet seen. *)
Definition best_unvisited (next_options : successors) (seen : list string)
    (b : string) (s : Q) : Prop :=
  (b, s) ∈ next_options ∧ (b ∉ seen)
  ∧ ∀ k v, (k, v) ∈ next_options → k ∉ seen → (v <= s)%Q.

(** The node a path has reached ([START] before the first step). *)
Definition reached (path : list string) : string := List.last path START.

(** [greedy_path t path]: every item of [path] is, when it is appended, an
    unvisited successor of the item before it (of [START] for the first) whose
    score is maximal among the unvisited successors. *)
Inductive greedy_path (t : transitions) : list string → Prop :=
| greedy_start : greedy_path t []
| greedy_step path next_options b s :
    greedy_path t path →
    get t (reached path) = Some next_options →
    best_unvisited next_options path b s →
    greedy_path t (path ++ [b]).

(** Nothing is left to pick after [path]: the node reached has no successor
    outside [path]. *)
Definition exhausted (t : transitions) (path : list string) : Prop :=
  ∀ next_options k v,
    get t (reached path) = Some next_options →
    (k, v) ∈ next_options → k ∈ path.

(** The link between the locals of the walk and the path built so far. *)
Definition walk_inv (item_data : catalog) (t : transitions) (w : walk) : Prop :=
  current_item w = reached (build_path w)
  ∧ (∀ x, x ∈ visited w ↔ x ∈ build_path w)
  ∧ greedy_path t (build_path w)
  ∧ (printed w).*1.*1 = seq 1 (length (build_path w))
  ∧ (printed w).*1.*2 = (get_item_name item_data <$> build_path w).

(** Decreasing scores. *)
Definition score_ge (x y : string * Q) : Prop := (y.2 <= x.2)%Q.

(** ** Vocabulary for the training pass *)

(** Folding one observation into the memories. *)
Definition learn (mem : specific_table * general_table) (o : observation)
    : specific_table * general_table :=
  learn_sequence (obs_champ o) (obs_enemy o) (weight_of (obs_win o))
    (obs_sequence o) mem.

(** How many times [b] immediately follows [a] in [seq]. *)
Fixpoint occurrences (a b : string) (seq : list string) : nat :=
  match seq with
  | x :: ((y :: _) as rest) =>
      (if bool_decide (x = a ∧ y = b) then 1 else 0) + occurrences a b rest
  | _ => 0
  end.

(** [w] when [P] holds, [0] otherwise. *)
Definition when (P : Prop) `{Decision P} (w : Q) : Q :=
  if decide P then w else 0%Q.

(** A natural number as a score. *)
Definition times (n : nat) : Q := inject_Z (Z.of_nat n).

(** A build sequence: [START] followed by distinct identifiers. *)
Definition is_build_sequence (seq : list string) : Prop :=
  ∃ l, seq = START :: l ∧ NoDup l.

(** ** Well-formed tables *)

(** [x] is a key of the catalog that passes the final-item filter. *)
Definition final_in (item_data : catalog) (x : string) : Prop :=
  is_Some (get item_data x) ∧ is_final_item x item_data = true.

(** A node of a table: [START] or a final item. *)
Definition node_ok (item_data : catalog) (x : string) : Prop :=
  x = START ∨ final_in item_data x.

(** A row of a table: its key is a node, its successors are final items and
    their scores are positive. *)
Definition row_ok (item_data : catalog) (a : string) (row : successors)
    : Prop :=
  node_ok item_data a
  ∧ ∀ b q, (b, q) ∈ row → final_in item_data b ∧ (0 < q)%Q.

Definition transitions_ok (item_data : catalog) (t : transitions) : Prop :=
  ∀ a row, (a, row) ∈ t → row_ok item_data a row.

Definition general_ok (item_data : catalog) (g : general_table) : Prop :=
  ∀ c t, (c, t) ∈ g → transitions_ok item_data t.

Definition specific_ok (item_data : catalog) (s : specific_table) : Prop :=
  ∀ c m e t, (c, m) ∈ s → (e, t) ∈ m → transitions_ok item_data t.

(** The score stored for an edge, if any. *)
Definition stored (t : transitions) (current_node next_node : string)
    : option Q :=
  get (getitem_default [] t current_node) next_node.

Definition general_stored (g : general_table) (my_champ : string)
    (current_node next_node : string) : option Q :=
  stored (getitem_default [] g my_champ) current_node next_node.

Definition specific_stored (s : specific_table) (my_champ enemy_champ : string)
    (current_node next_node : string) : option Q :=
  stored (getitem_default [] (getitem_default [] s my_champ) enemy_champ)
    current_node next_node.

(** Every table of the specific memory has a row for [START]. *)
Definition specific_started (s : specific_table) : Prop :=
  ∀ c m e t, (c, m) ∈ s → (e, t) ∈ m → is_Some (get t START).

(** The table kept for one matchup (empty when there is none). *)
Definition matchup_table (s : specific_table) (my_champ enemy_champ : string)
    : transitions :=
  getitem_default [] (getitem_default [] s my_champ) enemy_champ.


(** ** Further vocabulary *)

(** [get_item_data]: the catalog downloaded from Data Dragon, or the empty
    dictionary when anything in the download raises ([response] is [None]). *)
Definition get_item_data (response : option catalog) : catalog :=
  match response with
  | Some data => data
  | None => []
  end.

(** The identifiers of a purchase list, as the purchase loop reads them. *)
Definition purchase_ids (purchases : list purchase) : list string :=
  (λ pu, pretty (itemId pu)) <$> purchases.

(** The distinct elements of a list, each at its first occurrence. *)
Definition first_occurrences (l : list string) : list string :=
  reverse (remove_dups (reverse l)).

(** A candidate for direct opponent of a player of team [my_team] on
    [my_lane]: another team, the same lane. *)
Definition faces (my_team : Z) (my_lane : string) (opp : participant) : Prop :=
  teamId opp ≠ my_team ∧ lane opp = my_lane.

(** A corpus without the files that fail to load and without the
    participants whose lane is none of the five. *)
Definition clean_corpus (files : list match_file) : list match_file :=
  files ≫= λ f,
    match f with
    | None => []
    | Some participants =>
        [Some (filter (λ p, lane p ∈ known_lanes) participants)]
    end.

(** A table with a non-empty [START] row. *)
Definition live (t : transitions) : Prop :=
  ∃ first others, get t START = Some (first :: others).

Definition general_live (g : general_table) : Prop :=
  ∀ c t, (c, t) ∈ g → live t.

Definition specific_live (s : specific_table) : Prop :=
  ∀ c m e t, (c, m) ∈ s → (e, t) ∈ m → live t.

(** The better of two entries, the first one on equal scores. *)
Definition pick (x y : string * Q) : string * Q :=
  if Qltb x.2 y.2 then y else x.

(** The best entry of a dictionary among those not yet seen: the highest
    score, and among equal scores the entry inserted first. *)
Fixpoint earliest_best (seen : list string) (l : list (string * Q))
    : option (string * Q) :=
  match l with
  | [] => None
  | x :: l' =>
      if bool_decide (x.1 ∈ seen) then earliest_best seen l'
      else
        match earliest_best seen l' with
        | None => Some x
        | Some y => Some (pick x y)
        end
  end.

(** The best entry of a non-empty list, the first one on equal scores. *)
Definition first_best (l : list (string * Q)) : option (string * Q) :=
  foldr (λ x acc, Some (match acc with None => x | Some y => pick x y end))
    None l.

(** [scored_from t prev path scores]: walking [path] from [prev], every step
    goes to a successor stored in the row of the node before it, with the
    score listed for that step. *)
Fixpoint scored_from (t : transitions) (prev : string) (path : list string)
    (scores : list Q) : Prop :=
  match path, scores with
  | [], [] => True
  | b :: path', s :: scores' =>
      (∃ row, get t prev = Some row ∧ (b, s) ∈ row)
      ∧ scored_from t b path' scores'
  | _, _ => False
  end.


(** ** Build sequences read off the match files *)

(** The type of the events that are purchases. *)
Definition ITEM_PURCHASED : string := "ITEM_PURCHASED".

Definition is_purchase (pu : purchase) : Prop := type pu = ITEM_PURCHASED.

#[global] Instance is_purchase_dec (pu : purchase) : Decision (is_purchase pu).
Proof. unfold is_purchase. apply _. Defined.

(** The build sequence of a participant as the data model describes it:
    [START], then the final items among the purchases, each at its first
    purchase and in the order of the purchases. *)
Definition purchased_sequence (item_data : catalog) (p : participant)
    : list string :=
  START
  :: first_occurrences
       (filter (λ x, is_final_item x item_data = true)
          (purchase_ids (filter is_purchase (item_purchases p)))).


(** Every event of the list that is not a purchase concerns an item that is
    not final or that an earlier purchase of the list (or of [bought])
    already brought: a sale or a destruction of something bought before. *)
Fixpoint purchases_first (item_data : catalog) (bought : list string)
    (purchases : list purchase) : bool :=
  match purchases with
  | [] => true
  | pu :: rest =>
      let item_id := pretty (itemId pu) in
      if bool_decide (is_purchase pu)
      then purchases_first item_data (item_id :: bought) rest
      else (negb (is_final_item item_id item_data)
            || bool_decide (item_id ∈ bought))
           && purchases_first item_data bought rest
  end.

(** The participants of the files that load, each with the records of their
    match. *)
Definition entries (files : list match_file)
    : list (list participant * participant) :=
  files ≫= λ f,
    match f with
    | None => []
    | Some participants => (λ p, (participants, p)) <$> participants
    end.

(** Throughout the corpus, the participants on one of the five lanes sell or
    lose no final item they did not buy before. *)
Definition corpus_purchases_first (item_data : catalog)
    (files : list match_file) : bool :=
  forallb
    (λ x : list participant * participant,
       negb (bool_decide (lane x.2 ∈ known_lanes))
       || purchases_first item_data [] (item_purchases x.2))
    (entries files).

(** The number of build sequences of the corpus, won ([w = true]) or lost,
    of champion [c] on one of the five lanes, in which [b] immediately
    follows [a]. *)
Definition sequences_taking (item_data : catalog) (files : list match_file)
    (c a b : string) (w : bool) : nat :=
  length
    (filter
       (λ x : list participant * participant,
          lane x.2 ∈ known_lanes ∧ championName x.2 = c ∧ win x.2 = w
          ∧ follows a b (purchased_sequence item_data x.2) = true)
       (entries files)).


(** * Properties *)

(** ** Dictionaries *)

Section dict_facts.
Context {K V : Type} `{EqDecision K}.
Implicit Types (d : list (K * V)) (k : K) (v : V).

Lemma get_set_item_eq d k v : get (set_item d k v) k = Some v.
Proof.
  induction d as [|[k' v'] d IH]; simpl.
  - by rewrite decide_True.
  - destruct (decide (k = k')) as [->|Hne]; simpl.
    + by rewrite decide_True.
    + by rewrite decide_False.
Qed.

Lemma get_set_item_ne d k k' v :
  k ≠ k' → get (set_item d k v) k' = get d k'.
Proof.
  intros Hne. induction d as [|[k0 v0] d IH]; simpl.
  - by rewrite decide_False.
  - destruct (decide (k = k0)) as [->|Hk]; simpl.
    + by rewrite !decide_False.
    + by rewrite IH.
Qed.

Lemma set_item_same d k v : get d k = Some v → set_item d k v = d.
Proof.
  induction d as [|[k' v'] d IH]; simpl; [done|].
  destruct (decide (k = k')) as [->|Hne].
  - by intros [= ->].
  - intros Hget. by rewrite IH.
Qed.

Lemma get_Some_elem_of d k v : get d k = Some v → (k, v) ∈ d.
Proof.
  induction d as [|[k' v'] d IH]; simpl; [done|].
  destruct (decide (k = k')) as [->|Hne].
  - intros [= ->]. left.
  - intros Hget. right. by apply IH.
Qed.

Lemma elem_of_set_item d k v k' v' :
  (k', v') ∈ set_item d k v → (k', v') ∈ d ∨ (k' = k ∧ v' = v).
Proof.
  induction d as [|[k0 v0] d IH]; simpl.
  - intros Hin. apply list_elem_of_singleton in Hin as [= -> ->]. by right.
  - destruct (decide (k = k0)) as [->|Hne]; intros Hin;
      apply elem_of_cons in Hin as [Heq|Hin].
    + injection Heq as -> ->. by right.
    + left. by right.
    + left. rewrite Heq. left.
    + destruct (IH Hin) as [?|?]; [left; by right | by right].
Qed.

Lemma get_touch_eq dflt d k :
  get (touch dflt d k) k = Some (getitem_default dflt d k).
Proof.
  unfold touch, getitem_default. destruct (get d k) as [v|] eqn:Hget; [done|].
  simpl. induction d as [|[k' v'] d IH]; simpl in *.
  - by rewrite decide_True.
  - destruct (decide (k = k')); [done|]. by apply IH.
Qed.

Lemma touch_present dflt d k v : get d k = Some v → touch dflt d k = d.
Proof. unfold touch. by intros ->. Qed.

Lemma touch_absent dflt d k :
  get d k = None → touch dflt d k = d ++ [(k, dflt)].
Proof. unfold touch. by intros ->. Qed.
End dict_facts.

(** ** The final-item filter *)

Lemma truthy_opt_false {A : Type} (o : option (list A)) :
  truthy_opt o = false ↔ o = None ∨ o = Some [].
Proof.
  destruct o as [[|x l]|]; simpl; split; try done; auto.
  - intros [?|?]; discriminate.
Qed.

Lemma is_final_item_iff (item_id : string) (item_data_map : catalog) :
  is_final_item item_id item_data_map = true ↔
  ∃ info, get item_data_map item_id = Some info
          ∧ (into info = None ∨ into info = Some [])
          ∧ ("Boots" ∈ tags info ∨ (1600 ≤ gold_total info)%Z).
Proof.
  unfold is_final_item.
  destruct (get item_data_map item_id) as [info|]; last first.
  { split; [done | by intros (? & ? & _)]. }
  destruct (truthy_opt (into info)) eqn:Hinto; simpl.
  - rewrite andb_false_r. split; [done|].
    intros (i & [= <-] & Hf & _). apply truthy_opt_false in Hf. congruence.
  - apply truthy_opt_false in Hinto.
    rewrite andb_true_r. case_bool_decide as Hboots.
    + split; [|done]. intros _. exists info. auto.
    + destruct (Z.ltb_spec (gold_total info) 1600).
      * split; [done|]. intros (i & [= <-] & _ & [?|?]); [done | lia].
      * split; [|done]. intros _. exists info. auto.
Qed.

(** C2.  [is_final_item] holds exactly of the identifiers that are in the
    catalog, have no upgrade target ([into] absent or empty) and either carry
    the [Boots] tag or cost at least 1600 in total.  In particular, whatever
    the rest of the catalog: an entry with [into = [X; ...]] is rejected, an
    entry without the [Boots] tag and with [gold.total = 1599] is rejected, an
    entry without [into] and with [gold.total = 1600] is accepted, a [Boots]
    entry without [into] is accepted at any price, and an identifier that is
    no key of the catalog is rejected. *)
Theorem is_final_item_correct :
  (∀ (item_id : string) (item_data_map : catalog),
     is_final_item item_id item_data_map = true ↔
     ∃ info, get item_data_map item_id = Some info
             ∧ (into info = None ∨ into info = Some [])
             ∧ ("Boots" ∈ tags info ∨ (1600 ≤ gold_total info)%Z))
  ∧ (∀ item_id item_data_map n t x xs g,
       is_final_item item_id
         (set_item item_data_map item_id
            {| name := n; tags := t; into := Some (x :: xs); gold_total := g |})
       = false)
  ∧ (∀ item_id item_data_map n t i,
       "Boots" ∉ t →
       is_final_item item_id
         (set_item item_data_map item_id
            {| name := n; tags := t; into := i; gold_total := 1599 |})
       = false)
  ∧ (∀ item_id item_data_map n t,
       is_final_item item_id
         (set_item item_data_map item_id
            {| name := n; tags := t; into := None; gold_total := 1600 |})
       = true)
  ∧ (∀ item_id item_data_map n t g,
       is_final_item item_id
         (set_item item_data_map item_id
            {| name := n; tags := "Boots" :: t; into := None; gold_total := g |})
       = true)
  ∧ (∀ item_id item_data_map,
       get item_data_map item_id = None →
       is_final_item item_id item_data_map = false).
Proof.
  split; [exact is_final_item_iff|].
  repeat split; intros; unfold is_final_item;
    rewrite ?get_set_item_eq; cbn [tags into gold_total truthy_opt truthy negb].
  - by rewrite andb_false_r.
  - rewrite bool_decide_false by done. simpl. by rewrite orb_true_r.
  - by destruct (bool_decide _).
  - rewrite bool_decide_true; [done|left].
  - by rewrite H.
Qed.

(** ** Falling back to the general table *)

Lemma use_specific_no_start_edges (self : MarkovTrainer.brain)
    (my_champ enemy_champ : string) :
  specific_start_edges (MarkovTrainer.specific_memory self) my_champ enemy_champ
    = [] →
  MarkovTrainer.use_specific
    (MarkovTrainer.specific_data_of self my_champ (Some enemy_champ)) = false.
Proof.
  unfold specific_start_edges, MarkovTrainer.specific_data_of. simpl.
  destruct (get _ enemy_champ) as [sd|]; simpl; [|done].
  intros ->. simpl. apply andb_false_r.
Qed.

Lemma recommend_build_general (self : MarkovTrainer.brain)
    (my_champ : string) (enemy_champ : option string) :
  MarkovTrainer.use_specific
    (MarkovTrainer.specific_data_of self my_champ enemy_champ) = false →
  MarkovTrainer.returned
    (MarkovTrainer.recommend_build self my_champ enemy_champ)
  = walk_result (MarkovTrainer.item_data self)
      (get (MarkovTrainer.general_memory self) my_champ)
  ∧ MarkovTrainer.output
      (MarkovTrainer.recommend_build self my_champ enemy_champ)
    = match get (MarkovTrainer.general_memory self) my_champ with
      | Some ((_ :: _) as t) =>
          printed (MarkovTrainer.walk_loop (MarkovTrainer.item_data self)
                     t 1 6 start_walk)
      | _ => []
      end.
Proof.
  intros Hno.
  unfold MarkovTrainer.recommend_build, MarkovTrainer.select_transitions.
  rewrite Hno.
  destruct (get (MarkovTrainer.general_memory self) my_champ) as [[|e t]|];
    cbn [truthy negb walk_result MarkovTrainer.returned MarkovTrainer.output];
    done.
Qed.

(** C4.  When the table kept for the queried opponent has no edge leaving
    [START] (or there is no such table), [recommend_build champion opponent]
    returns, and prints, exactly what [recommend_build champion None] does:
    the walk over the general table of the champion, whoever the opponent. *)
Theorem recommend_build_fallback (self : MarkovTrainer.brain)
    (my_champ enemy_champ : string) :
  specific_start_edges (MarkovTrainer.specific_memory self) my_champ enemy_champ
    = [] →
  MarkovTrainer.returned
    (MarkovTrainer.recommend_build self my_champ (Some enemy_champ))
  = MarkovTrainer.returned (MarkovTrainer.recommend_build self my_champ None)
  ∧ MarkovTrainer.output
      (MarkovTrainer.recommend_build self my_champ (Some enemy_champ))
    = MarkovTrainer.output (MarkovTrainer.recommend_build self my_champ None)
  ∧ MarkovTrainer.returned
      (MarkovTrainer.recommend_build self my_champ (Some enemy_champ))
    = walk_result (MarkovTrainer.item_data self)
        (get (MarkovTrainer.general_memory self) my_champ).
Proof.
  intros Hno. apply use_specific_no_start_edges in Hno.
  destruct (recommend_build_general self my_champ (Some enemy_champ) Hno)
    as [Hr Ho].
  destruct (recommend_build_general self my_champ None eq_refl) as [Hr0 Ho0].
  rewrite Hr, Hr0, Ho, Ho0. done.
Qed.

Lemma recommend_build_fallback_witness :
  specific_start_edges (MarkovTrainer.specific_memory Demo.trained)
    "Garen" "Ahri" = []
  ∧ MarkovTrainer.returned
      (MarkovTrainer.recommend_build Demo.trained "Garen" (Some "Ahri"))
    = Some ["2001"; "2002"].
Proof.
  split; [reflexivity|].
  destruct (recommend_build_fallback Demo.trained "Garen" "Ahri" eq_refl)
    as (_ & _ & ->).
  reflexivity.
Defined.

Lemma recommend_build_general_kept (self : MarkovTrainer.brain)
    (my_champ : string) (enemy_champ : option string) :
  MarkovTrainer.general_memory
    (MarkovTrainer.after
       (MarkovTrainer.recommend_build self my_champ enemy_champ))
  = MarkovTrainer.general_memory self
  ∧ MarkovTrainer.item_data
      (MarkovTrainer.after
         (MarkovTrainer.recommend_build self my_champ enemy_champ))
    = MarkovTrainer.item_data self.
Proof.
  unfold MarkovTrainer.recommend_build.
  destruct (MarkovTrainer.select_transitions _ _ _) as [t|]; [|done].
  by destruct (negb (truthy t)).
Qed.

(** The same holds when the two queries are made one after the other: what
    the first query does to the specific memory does not show in the second. *)
Lemma recommend_build_fallback_in_sequence (self : MarkovTrainer.brain)
    (my_champ enemy_champ : string) :
  specific_start_edges (MarkovTrainer.specific_memory self) my_champ enemy_champ
    = [] →
  let first := MarkovTrainer.recommend_build self my_champ (Some enemy_champ) in
  MarkovTrainer.returned
    (MarkovTrainer.recommend_build (MarkovTrainer.after first) my_champ None)
  = MarkovTrainer.returned first.
Proof.
  intros Hno first. apply use_specific_no_start_edges in Hno.
  destruct (recommend_build_general self my_champ (Some enemy_champ) Hno)
    as [Hr _].
  destruct (recommend_build_general (MarkovTrainer.after first) my_champ None
              eq_refl) as [Hr' _].
  destruct (recommend_build_general_kept self my_champ (Some enemy_champ))
    as [Hg Hcat].
  fold first in Hr, Hg, Hcat. by rewrite Hr', Hr, Hg, Hcat.
Qed.

(** ** Loading a brain *)

Lemma load_brain_absent (self : Marko.brain) :
  Marko.load_brain self Marko.Absent = (false, self).
Proof. reflexivity. Qed.

Lemma load_brain_unreadable (self : Marko.brain) :
  Marko.load_brain self (Marko.Present None) = (false, self).
Proof. reflexivity. Qed.

Lemma load_brain_no_specific (self : Marko.brain) (data : Marko.json) :
  Marko.subscript data "specific" = None →
  Marko.load_brain self (Marko.Present (Some data)) = (false, self).
Proof. intros H. simpl. by rewrite H. Qed.

(** A failed load never touches the general memory or the catalog; the
    specific memory is kept unless the snapshot had a ["specific"] entry. *)
Lemma load_brain_failure (self self' : Marko.brain) (file : Marko.brain_file) :
  Marko.load_brain self file = (false, self') →
  Marko.general_memory self' = Marko.general_memory self
  ∧ Marko.item_data self' = Marko.item_data self
  ∧ (Marko.specific_memory self' = Marko.specific_memory self
     ∨ ∃ data, file = Marko.Present (Some data)
               ∧ Marko.subscript data "specific"
                 = Some (Marko.specific_memory self')
               ∧ Marko.subscript data "general" = None).
Proof.
  destruct file as [|[data|]]; simpl; try (intros [= <-]; by auto).
  destruct (Marko.subscript data "specific") as [s|] eqn:Hs;
    [|intros [= <-]; by auto].
  destruct (Marko.subscript data "general") as [g|] eqn:Hg; [done|].
  intros [= <-]. simpl. repeat split; [done..|]. right. by exists data.
Qed.

Lemma load_brain_success (self : Marko.brain) (s g : Marko.json) :
  Marko.load_brain self
    (Marko.Present (Some (Marko.JObj [("specific", s); ("general", g)])))
  = (true, {| Marko.item_data := Marko.item_data self;
              Marko.specific_memory := s;
              Marko.general_memory := g |}).
Proof. reflexivity. Qed.

(** What [train] saved is what [load_brain] reads back. *)
Lemma load_brain_after_train (self other : Marko.brain)
    (files : list match_file) :
  Marko.item_data other = Marko.item_data self →
  Marko.load_brain other (Marko.train self files).2
  = (true, (Marko.train self files).1).
Proof. intros Hcat. unfold Marko.train. simpl. by rewrite Hcat. Qed.

(** C9.  On a snapshot that parses but holds the ["specific"] table only,
    [load_brain] returns [False] after having replaced the specific memory:
    the trained table of the brain is gone, the general memory is the old
    one. *)
Theorem load_brain_partial_snapshot :
  Marko.load_brain Demo.loaded Demo.partial_snapshot
  = (false,
     {| Marko.item_data := Demo.item_data;
        Marko.specific_memory := Marko.JObj [("Garen", Marko.JObj [])];
        Marko.general_memory := Marko.general_memory Demo.loaded |})
  ∧ Marko.specific_memory
      (Marko.load_brain Demo.loaded Demo.partial_snapshot).2
    ≠ Marko.specific_memory Demo.loaded.
Proof. split; [reflexivity|]. vm_compute. discriminate. Qed.

(** ** What a query does to the memories *)

Lemma recommend_build_specific_after (self : MarkovTrainer.brain)
    (my_champ : string) (enemy_champ : option string) :
  MarkovTrainer.specific_memory
    (MarkovTrainer.after
       (MarkovTrainer.recommend_build self my_champ enemy_champ))
  = MarkovTrainer.specific_after_reads self my_champ enemy_champ.
Proof.
  unfold MarkovTrainer.recommend_build.
  destruct (MarkovTrainer.select_transitions _ _ _) as [t|]; [|done].
  by destruct (negb (truthy t)).
Qed.

(** A champion the specific memory has never seen is added to it, with an
    empty table, by any query about that champion. *)
Lemma recommend_build_unseen_champion (self : MarkovTrainer.brain)
    (my_champ : string) (enemy_champ : option string) :
  get (MarkovTrainer.specific_memory self) my_champ = None →
  MarkovTrainer.specific_memory
    (MarkovTrainer.after
       (MarkovTrainer.recommend_build self my_champ enemy_champ))
  = MarkovTrainer.specific_memory self ++ [(my_champ, [])].
Proof.
  intros Hnone. rewrite recommend_build_specific_after.
  unfold MarkovTrainer.specific_after_reads.
  rewrite (touch_absent _ _ _ Hnone).
  destruct enemy_champ as [enemy|]; [|done].
  assert (getitem_default []
            (MarkovTrainer.specific_memory self ++ [(my_champ, [])]) my_champ
          = []) as ->; [|done].
  rewrite <- (touch_absent [] _ _ Hnone).
  unfold getitem_default at 1. rewrite get_touch_eq. simpl.
  unfold getitem_default. by rewrite Hnone.
Qed.

(** C8.  Asking about a champion that was never trained changes the specific
    memory: its key set gains the champion.  (The general memory is read with
    [.get] and stays as it was.) *)
Theorem recommend_build_inserts_champion :
  keys (MarkovTrainer.specific_memory Demo.trained) = ["Garen"; "Darius"]
  ∧ keys (MarkovTrainer.specific_memory
            (MarkovTrainer.after
               (MarkovTrainer.recommend_build Demo.trained "Teemo"
                  (Some "Garen"))))
    = ["Garen"; "Darius"; "Teemo"]
  ∧ MarkovTrainer.specific_memory
      (MarkovTrainer.after
         (MarkovTrainer.recommend_build Demo.trained "Teemo" (Some "Garen")))
    = MarkovTrainer.specific_memory Demo.trained ++ [("Teemo", [])].
Proof. repeat split; reflexivity. Qed.

(** ** Choosing the next item *)

Lemma Qltb_true (a b : Q) : Qltb a b = true → (a <= b)%Q.
Proof.
  unfold Qltb. intros H. apply negb_true_iff in H.
  apply Qlt_le_weak, Qnot_le_lt. intros Hle.
  apply Qle_bool_iff in Hle. congruence.
Qed.

Lemma Qltb_false (a b : Q) : Qltb a b = false → (b <= a)%Q.
Proof.
  unfold Qltb. intros H. apply negb_false_iff in H. by apply Qle_bool_iff.
Qed.

Lemma max_item_spec (best : string * Q) (rest : list (string * Q)) :
  max_item best rest ∈ best :: rest
  ∧ ∀ x, x ∈ best :: rest → (x.2 <= (max_item best rest).2)%Q.
Proof.
  revert best. induction rest as [|y rest IH]; intros best; simpl.
  - split; [left|]. intros x Hx. apply list_elem_of_singleton in Hx as ->.
    apply Qle_refl.
  - destruct (IH (if Qltb best.2 y.2 then y else best)) as [Hin Hmax].
    split.
    + apply elem_of_cons in Hin as [->|Hin]; [|by do 2 right].
      destruct (Qltb best.2 y.2); [right|]; left.
    + intros x Hx. destruct (Qltb best.2 y.2) eqn:Hlt.
      * apply elem_of_cons in Hx as [->|Hx]; [|by apply Hmax].
        eapply Qle_trans; [by apply Qltb_true|]. apply Hmax. left.
      * apply elem_of_cons in Hx as [->|Hx]; [apply Hmax; left|].
        apply elem_of_cons in Hx as [->|Hx]; [|apply Hmax; by right].
        eapply Qle_trans; [by apply Qltb_false|]. apply Hmax. left.
Qed.

Lemma elem_of_insert_desc (x y : string * Q) (l : list (string * Q)) :
  y ∈ insert_desc x l ↔ y = x ∨ y ∈ l.
Proof.
  induction l as [|z l IH]; simpl.
  - rewrite list_elem_of_singleton, elem_of_nil. tauto.
  - destruct (Qltb x.2 z.2); rewrite !elem_of_cons; [rewrite IH|]; tauto.
Qed.

Lemma elem_of_sorted_desc (y : string * Q) (l : list (string * Q)) :
  y ∈ sorted_desc l ↔ y ∈ l.
Proof.
  induction l as [|x l IH]; simpl; [done|].
  rewrite elem_of_insert_desc, elem_of_cons, IH. done.
Qed.

Lemma insert_desc_sorted (x : string * Q) (l : list (string * Q)) :
  StronglySorted score_ge l → StronglySorted score_ge (insert_desc x l).
Proof.
  induction 1 as [|z l Hsorted IH Hall]; simpl.
  - repeat constructor.
  - destruct (Qltb x.2 z.2) eqn:Hlt.
    + constructor; [done|]. apply Forall_forall. intros y Hy.
      apply elem_of_insert_desc in Hy as [->|Hy].
      * by apply Qltb_true.
      * by eapply Forall_forall in Hall.
    + constructor; [by constructor|]. constructor; [by apply Qltb_false|].
      apply Forall_forall. intros y Hy. unfold score_ge.
      eapply Qle_trans; [|by apply Qltb_false].
      by eapply Forall_forall in Hall.
Qed.

Lemma sorted_desc_sorted (l : list (string * Q)) :
  StronglySorted score_ge (sorted_desc l).
Proof.
  induction l; simpl; [constructor | by apply insert_desc_sorted].
Qed.

Lemma first_unvisited_Some (seen : list string) (l : list (string * Q))
    (b : string) (s : Q) :
  StronglySorted score_ge l →
  first_unvisited seen l = Some (b, s) →
  (b, s) ∈ l ∧ (b ∉ seen) ∧ ∀ k v, (k, v) ∈ l → k ∉ seen → (v <= s)%Q.
Proof.
  induction 1 as [|[k0 v0] l Hsorted IH Hall]; simpl; [done|].
  case_bool_decide as Hseen.
  - intros Hfirst. destruct (IH Hfirst) as (Hin & Hb & Hmax).
    split; [by right|]. split; [done|].
    intros k v Hkv Hk. apply elem_of_cons in Hkv as [[= -> ->]|Hkv]; [done|].
    by apply (Hmax k v).
  - intros [= -> ->]. split; [left|]. split; [done|].
    intros k v Hkv _. apply elem_of_cons in Hkv as [[= -> ->]|Hkv].
    + apply Qle_refl.
    + rewrite Forall_forall in Hall. apply (Hall (k, v) Hkv).
Qed.

Lemma first_unvisited_None (seen : list string) (l : list (string * Q)) :
  first_unvisited seen l = None → ∀ k v, (k, v) ∈ l → k ∈ seen.
Proof.
  induction l as [|[k0 v0] l IH]; simpl; [by intros _ k v ?%elem_of_nil|].
  case_bool_decide as Hseen; [|done].
  intros Hnone k v Hkv. apply elem_of_cons in Hkv as [[= -> ->]|Hkv]; [done|].
  by eapply IH.
Qed.

Lemma best_unvisited_sorted (next_options : successors) (seen : list string)
    (b : string) (s : Q) :
  first_unvisited seen (sorted_desc next_options) = Some (b, s) →
  best_unvisited next_options seen b s.
Proof.
  intros Hfirst.
  destruct (first_unvisited_Some _ _ _ _ (sorted_desc_sorted _) Hfirst)
    as (Hin & Hb & Hmax).
  split; [by apply elem_of_sorted_desc|]. split; [done|].
  intros k v Hkv. apply (Hmax k v). by apply elem_of_sorted_desc.
Qed.

Lemma markov_choose_Some (t : transitions) (w : walk) (b : string) (s : Q) :
  MarkovTrainer.choose t w = Some (b, s) →
  ∃ next_options,
    get t (current_item w) = Some next_options
    ∧ best_unvisited next_options (visited w) b s.
Proof.
  unfold MarkovTrainer.choose.
  destruct (get t (current_item w)) as [[|first others]|]; [done| |done].
  intros Hchoose. exists (first :: others). split; [done|].
  destruct (max_item_spec first others) as [Hin Hmax].
  case_bool_decide as Hseen.
  - by apply best_unvisited_sorted.
  - injection Hchoose as Hbest. rewrite Hbest in Hin, Hmax, Hseen.
    split; [done|]. split; [done|]. intros k v Hkv _. by apply (Hmax (k, v)).
Qed.

Lemma markov_choose_None (t : transitions) (w : walk) :
  MarkovTrainer.choose t w = None →
  ∀ next_options k v,
    get t (current_item w) = Some next_options →
    (k, v) ∈ next_options → k ∈ visited w.
Proof.
  unfold MarkovTrainer.choose. intros Hchoose next_options k v Hget Hkv.
  rewrite Hget in Hchoose. destruct next_options as [|first others].
  { by apply elem_of_nil in Hkv. }
  case_bool_decide as Hseen; [|done].
  eapply first_unvisited_None; [done|]. by apply elem_of_sorted_desc.
Qed.

Lemma marko_choose_Some (t : transitions) (w : walk) (b : string) (s : Q) :
  Marko.choose t w = Some (b, s) →
  ∃ next_options,
    get t (current_item w) = Some next_options
    ∧ best_unvisited next_options (visited w) b s.
Proof.
  unfold Marko.choose.
  destruct (get t (current_item w)) as [next_options|]; [|done].
  destruct (negb (truthy next_options)); [done|].
  destruct (first_unvisited _ _) as [[b' s']|] eqn:Hfirst; [|done].
  case_bool_decide; [done|]. intros [= -> ->].
  exists next_options. split; [done|]. by apply best_unvisited_sorted.
Qed.

(** Ties go to the key inserted first, in [max] and in [sorted] alike. *)
Example tie_break :
  max_item ("A", 1%Q) [("B", 2%Q); ("C", 2%Q)] = ("B", 2%Q)
  ∧ sorted_desc [("A", 1%Q); ("B", 2%Q); ("C", 2%Q)]
    = [("B", 2%Q); ("C", 2%Q); ("A", 1%Q)]
  ∧ first_unvisited ["B"] (sorted_desc [("A", 1%Q); ("B", 2%Q); ("C", 2%Q)])
    = Some ("C", 2%Q).
Proof. repeat split; reflexivity. Qed.

(** ** The rounds of the walk *)

Lemma reached_snoc (path : list string) (b : string) :
  reached (path ++ [b]) = b.
Proof. unfold reached. apply last_last. Qed.

Lemma greedy_path_NoDup (t : transitions) (path : list string) :
  greedy_path t path → NoDup path.
Proof.
  induction 1 as [|path next_options b s _ IH _ (_ & Hfresh & _)].
  - constructor.
  - apply NoDup_app. split; [done|]. split; [|apply NoDup_singleton].
    intros x Hx ->%list_elem_of_singleton. done.
Qed.

Lemma start_walk_inv (item_data : catalog) (t : transitions) :
  walk_inv item_data t start_walk.
Proof. repeat split; simpl; try done. constructor. Qed.

Section walk_facts.
Variable choose : transitions → walk → option (string * Q).
Variable item_data : catalog.
Variable t : transitions.

Lemma walk_rounds_length (first rounds : nat) (w : walk) :
  (length (build_path (walk_rounds choose item_data t first rounds w))
   ≤ length (build_path w) + rounds)%nat.
Proof.
  revert first w. induction rounds as [|rounds IH]; intros first w; simpl.
  - lia.
  - destruct (choose t w) as [[b s]|]; [|lia].
    etrans; [apply IH|]. simpl. rewrite length_app. simpl. lia.
Qed.

(** The walk ends because its rounds are used up or because a round
    found nothing to choose. *)
Lemma walk_rounds_stop (first rounds : nat) (w : walk) :
  let w' := walk_rounds choose item_data t first rounds w in
  length (build_path w') = length (build_path w) + rounds
  ∨ choose t w' = None.
Proof.
  revert first w. induction rounds as [|rounds IH]; intros first w; simpl.
  - left. lia.
  - destruct (choose t w) as [[b s]|] eqn:Hchoose; [|by right].
    destruct (IH (S first) (advance item_data first w b s)) as [Hlen|Hnone];
      [left|by right].
    rewrite Hlen. simpl. rewrite length_app. simpl. lia.
Qed.

Hypothesis choose_sound : ∀ w b s,
  choose t w = Some (b, s) →
  ∃ next_options,
    get t (current_item w) = Some next_options
    ∧ best_unvisited next_options (visited w) b s.

Lemma advance_inv (w : walk) (b : string) (s : Q) :
  walk_inv item_data t w →
  choose t w = Some (b, s) →
  walk_inv item_data t
    (advance item_data (S (length (build_path w))) w b s).
Proof.
  intros (Hcur & Hseen & Hpath & Hranks & Hnames) Hchoose.
  destruct (choose_sound w b s Hchoose) as (opts & Hget & Hin & Hfresh & Hmax).
  repeat split; simpl.
  - by rewrite reached_snoc.
  - rewrite elem_of_cons, elem_of_app, list_elem_of_singleton, Hseen. tauto.
  - rewrite elem_of_cons, elem_of_app, list_elem_of_singleton, Hseen. tauto.
  - rewrite Hcur in Hget. econstructor; [done..|].
    split; [done|]. split; [by rewrite <- Hseen|].
    intros k v Hkv Hk. apply (Hmax k v Hkv). by rewrite Hseen.
  - rewrite !fmap_app, Hranks, length_app. simpl.
    by rewrite Nat.add_1_r, seq_S.
  - by rewrite !fmap_app, Hnames.
Qed.

Lemma walk_rounds_inv (rounds : nat) (w : walk) :
  walk_inv item_data t w →
  walk_inv item_data t
    (walk_rounds choose item_data t (S (length (build_path w))) rounds w).
Proof.
  revert w. induction rounds as [|rounds IH]; intros w Hinv; simpl; [done|].
  destruct (choose t w) as [[b s]|] eqn:Hchoose; [|done].
  pose proof (advance_inv w b s Hinv Hchoose) as Hinv'.
  apply IH in Hinv'. simpl in Hinv'. rewrite length_app in Hinv'.
  simpl in Hinv'. by rewrite Nat.add_1_r in Hinv'.
Qed.
End walk_facts.

Lemma markov_walk_inv (item_data : catalog) (t : transitions) :
  walk_inv item_data t (MarkovTrainer.walk_loop item_data t 1 6 start_walk).
Proof.
  apply (walk_rounds_inv MarkovTrainer.choose item_data t
           (markov_choose_Some t) 6 start_walk (start_walk_inv item_data t)).
Qed.

Lemma marko_print_path_inv (item_data : catalog) (t : transitions) :
  walk_inv item_data t (Marko._print_path item_data t).
Proof.
  apply (walk_rounds_inv Marko.choose item_data t
           (marko_choose_Some t) 6 start_walk (start_walk_inv item_data t)).
Qed.

Lemma markov_walk_exhausted (item_data : catalog) (t : transitions) :
  let w := MarkovTrainer.walk_loop item_data t 1 6 start_walk in
  (length (build_path w) < 6)%nat → exhausted t (build_path w).
Proof.
  intros w Hshort.
  destruct (walk_rounds_stop MarkovTrainer.choose item_data t 1 6 start_walk)
    as [Hlen|Hnone].
  { fold (MarkovTrainer.walk_loop item_data t 1 6 start_walk) in Hlen.
    fold w in Hlen. simpl in Hlen. lia. }
  fold (MarkovTrainer.walk_loop item_data t 1 6 start_walk) in Hnone.
  fold w in Hnone.
  destruct (markov_walk_inv item_data t) as (Hcur & Hseen & _).
  fold w in Hcur, Hseen.
  intros next_options k v Hget Hkv. apply Hseen.
  rewrite <- Hcur in Hget.
  by apply (markov_choose_None t w Hnone next_options k v).
Qed.

(** C3.  A query always produces a result.  When the selected table is
    missing or empty the result is [None]; otherwise it is a list of at most
    six items, without repetition, in which every item was, when chosen, an
    unvisited successor of maximal score of the item before it; a list of
    fewer than six items ends where no unvisited successor is left.  The
    items visited by [_print_path] form such a list as well. *)
Theorem recommend_build_bounded_distinct :
  (∀ (self : MarkovTrainer.brain) (my_champ : string)
     (enemy_champ : option string),
     match MarkovTrainer.select_transitions self my_champ enemy_champ with
     | Some ((_ :: _) as t) =>
         ∃ path,
           MarkovTrainer.returned
             (MarkovTrainer.recommend_build self my_champ enemy_champ)
           = Some path
           ∧ (length path ≤ 6)%nat
           ∧ NoDup path
           ∧ greedy_path t path
           ∧ ((length path < 6)%nat → exhausted t path)
     | _ =>
         MarkovTrainer.returned
           (MarkovTrainer.recommend_build self my_champ enemy_champ)
         = None
     end)
  ∧ (∀ (item_data : catalog) (t : transitions),
       let path := build_path (Marko._print_path item_data t) in
       (length path ≤ 6)%nat ∧ NoDup path ∧ greedy_path t path).
Proof.
  split.
  - intros self my_champ enemy_champ. unfold MarkovTrainer.recommend_build.
    destruct (MarkovTrainer.select_transitions _ _ _) as [[|e t]|];
      [done| |done].
    cbn [truthy negb MarkovTrainer.returned].
    eexists. split; [done|].
    destruct (markov_walk_inv (MarkovTrainer.item_data self) (e :: t))
      as (_ & _ & Hpath & _).
    split; [|split; [by eapply greedy_path_NoDup|split; [done|]]].
    + apply (walk_rounds_length MarkovTrainer.choose _ _ 1 6 start_walk).
    + apply markov_walk_exhausted.
  - intros item_data t path.
    destruct (marko_print_path_inv item_data t) as (_ & _ & Hpath & _).
    split; [|split; [by eapply greedy_path_NoDup|done]].
    apply (walk_rounds_length Marko.choose _ _ 1 6 start_walk).
Qed.

(** ** What a query returns *)

Lemma get_item_name_unknown (item_data : catalog) (item_id : string) :
  get item_data item_id = None →
  get_item_name item_data item_id = "ID " +:+ item_id.
Proof. unfold get_item_name. by intros ->. Qed.

Lemma demo_no_name_2001 (item_id : string) :
  get_item_name Demo.item_data item_id ≠ "2001".
Proof.
  unfold get_item_name, Demo.item_data. simpl.
  repeat (case_decide; [simpl; discriminate|]). simpl. discriminate.
Qed.

(** C7, refuted as stated.  On the demo brain the query for Garen returns
    the identifiers ["2001"; "2002"], which are the display names of no list
    of identifiers (the names printed are "Trinity Force" and "Plated
    Steelcaps"); and the query for a champion without data returns [None],
    not the empty list. *)
Lemma recommend_build_returns_no_names :
  MarkovTrainer.returned
    (MarkovTrainer.recommend_build Demo.trained "Garen" None)
  = Some ["2001"; "2002"]
  ∧ (MarkovTrainer.output
       (MarkovTrainer.recommend_build Demo.trained "Garen" None)).*1.*2
    = ["Trinity Force"; "Plated Steelcaps"]
  ∧ (∀ ids, get_item_name Demo.item_data <$> ids ≠ ["2001"; "2002"])
  ∧ MarkovTrainer.returned
      (MarkovTrainer.recommend_build Demo.trained "Teemo" None)
    = None
  ∧ MarkovTrainer.returned
      (MarkovTrainer.recommend_build Demo.trained "Teemo" None)
    ≠ Some [].
Proof.
  split; [reflexivity|]. split; [reflexivity|]. split; [|split; [reflexivity|]].
  - intros [|item_id ids]; simpl; [done|].
    intros [= Hname _]. by apply demo_no_name_2001 in Hname.
  - vm_compute. discriminate.
Qed.

(** C7, amended.  The query returns the raw identifiers of the items chosen
    (or [None] when the selected table is missing or empty).  Display names
    appear in the printed lines only: line [i] carries rank [i] and the
    catalog name of the [i]-th identifier returned, and an identifier that is
    no key of the catalog is named ["ID "] followed by the identifier.  A
    champion that neither memory knows yields [None] and prints no item. *)
Theorem recommend_build_returns_identifiers (self : MarkovTrainer.brain)
    (my_champ : string) (enemy_champ : option string) :
  let r := MarkovTrainer.recommend_build self my_champ enemy_champ in
  let ids := default [] (MarkovTrainer.returned r) in
  MarkovTrainer.returned r
  = walk_result (MarkovTrainer.item_data self)
      (MarkovTrainer.select_transitions self my_champ enemy_champ)
  ∧ (MarkovTrainer.output r).*1.*2
    = (get_item_name (MarkovTrainer.item_data self) <$> ids)
  ∧ (MarkovTrainer.output r).*1.*1 = seq 1 (length ids)
  ∧ (∀ item_id,
       get (MarkovTrainer.item_data self) item_id = None →
       get_item_name (MarkovTrainer.item_data self) item_id
       = "ID " +:+ item_id)
  ∧ (get (MarkovTrainer.general_memory self) my_champ = None →
     get (MarkovTrainer.specific_memory self) my_champ = None →
     MarkovTrainer.returned r = None ∧ MarkovTrainer.output r = []).
Proof.
  intros r ids. subst r ids. unfold MarkovTrainer.recommend_build.
  split; [|split; [|split; [|split]]].
  - by destruct (MarkovTrainer.select_transitions _ _ _) as [[|e t]|].
  - destruct (MarkovTrainer.select_transitions _ _ _) as [[|e t]|];
      [done| |done].
    cbn [truthy negb MarkovTrainer.returned MarkovTrainer.output default].
    by destruct (markov_walk_inv (MarkovTrainer.item_data self) (e :: t))
      as (_ & _ & _ & _ & ->).
  - destruct (MarkovTrainer.select_transitions _ _ _) as [[|e t]|];
      [done| |done].
    cbn [truthy negb MarkovTrainer.returned MarkovTrainer.output default].
    by destruct (markov_walk_inv (MarkovTrainer.item_data self) (e :: t))
      as (_ & _ & _ & -> & _).
  - apply get_item_name_unknown.
  - intros Hg Hs.
    assert (MarkovTrainer.select_transitions self my_champ enemy_champ = None)
      as ->; [|done].
    unfold MarkovTrainer.select_transitions, MarkovTrainer.specific_data_of.
    unfold getitem_default. rewrite Hs, Hg. by destruct enemy_champ.
Qed.

Lemma recommend_build_returns_identifiers_witness :
  get (MarkovTrainer.general_memory Demo.trained) "Teemo" = None
  ∧ get (MarkovTrainer.specific_memory Demo.trained) "Teemo" = None
  ∧ MarkovTrainer.returned
      (MarkovTrainer.recommend_build Demo.trained "Teemo" (Some "Garen"))
    = None.
Proof.
  split; [reflexivity|]. split; [reflexivity|].
  apply (recommend_build_returns_identifiers Demo.trained "Teemo"
           (Some "Garen")); reflexivity.
Defined.

(** ** The training pass as a fold over observations *)

Lemma train_participants_learn (item_data : catalog)
    (participants l : list participant)
    (mem : specific_table * general_table) :
  foldl (train_participant item_data participants) mem l
  = foldl learn mem
      (observe item_data participants <$>
         filter (λ p, lane p ∈ known_lanes) l).
Proof.
  revert mem. induction l as [|p l IH]; intros mem; [done|].
  simpl. rewrite IH. unfold train_participant.
  rewrite filter_cons. case_bool_decide as Hlane; simpl.
  - by rewrite decide_True.
  - by rewrite decide_False.
Qed.

Lemma train_files_learn (item_data : catalog) (files : list match_file)
    (mem : specific_table * general_table) :
  train_files item_data files mem
  = foldl learn mem (observations item_data files).
Proof.
  unfold train_files, observations. revert mem.
  induction files as [|[participants|] files IH]; intros mem; [done| |].
  - simpl. rewrite foldl_app, <- train_participants_learn. apply IH.
  - simpl. apply IH.
Qed.

(** ** Build sequences *)

Lemma scan_purchases_spec (item_data : catalog) (purchases : list purchase)
    (build_sequence processed_ids : list string) :
  ∃ l,
    scan_purchases item_data purchases build_sequence processed_ids
    = build_sequence ++ l
    ∧ NoDup l
    ∧ ∀ x, x ∈ l → (x ∉ processed_ids) ∧ is_final_item x item_data = true.
Proof.
  revert build_sequence processed_ids.
  induction purchases as [|pu purchases IH]; intros build_sequence processed_ids;
    simpl.
  - exists []. rewrite app_nil_r. split; [done|]. split; [constructor|].
    by intros x ?%elem_of_nil.
  - destruct (is_final_item (pretty (itemId pu)) item_data) eqn:Hfinal;
      simpl; [|apply IH].
    case_bool_decide as Hseen; [apply IH|].
    destruct (IH (build_sequence ++ [pretty (itemId pu)])
                (pretty (itemId pu) :: processed_ids))
      as (l & -> & Hnodup & Hl).
    exists (pretty (itemId pu) :: l). rewrite <- app_assoc. split; [done|].
    split.
    + constructor; [|done]. intros Hin. apply Hl in Hin as [Hnot _].
      apply Hnot. left.
    + intros x Hx. apply elem_of_cons in Hx as [->|Hx]; [done|].
      apply Hl in Hx as [Hnot Hfin]. split; [|done].
      intros Hin. apply Hnot. by right.
Qed.

Lemma build_sequence_of_spec (item_data : catalog) (p : participant) :
  ∃ l, build_sequence_of item_data p = START :: l
       ∧ NoDup l
       ∧ ∀ x, x ∈ l → is_final_item x item_data = true.
Proof.
  unfold build_sequence_of.
  destruct (scan_purchases_spec item_data (item_purchases p) [START] [])
    as (l & -> & Hnodup & Hl).
  exists l. split; [done|]. split; [done|]. intros x Hx. by apply Hl.
Qed.

Lemma observations_build_sequences (item_data : catalog)
    (files : list match_file) :
  Forall (λ o, is_build_sequence (obs_sequence o))
    (observations item_data files).
Proof.
  unfold observations. apply Forall_forall. intros o Ho.
  apply list_elem_of_bind in Ho as ([participants|] & Ho & _);
    [|by apply elem_of_nil in Ho].
  apply list_elem_of_fmap in Ho as (p & -> & _). simpl.
  destruct (build_sequence_of_spec item_data p) as (l & Hl & Hnodup & _).
  by exists l.
Qed.

(** In a build sequence a pair of neighbours occurs at most once. *)
Lemma occurrences_cons2 (a b x y : string) (rest : list string) :
  occurrences a b (x :: y :: rest)
  = ((if bool_decide (x = a ∧ y = b) then 1 else 0)
     + occurrences a b (y :: rest))%nat.
Proof. reflexivity. Qed.

Lemma follows_cons2 (a b x y : string) (rest : list string) :
  follows a b (x :: y :: rest)
  = (bool_decide (x = a) && bool_decide (y = b)) || follows a b (y :: rest).
Proof. reflexivity. Qed.

Lemma pair_decide (a b x y : string) :
  bool_decide (x = a) && bool_decide (y = b) = bool_decide (x = a ∧ y = b).
Proof. symmetry. apply bool_decide_and. Qed.

Lemma occurrences_not_in_tail (a b : string) (seq : list string) :
  b ∉ tail seq → occurrences a b seq = 0 ∧ follows a b seq = false.
Proof.
  induction seq as [|x [|y rest] IH]; [done..|].
  rewrite occurrences_cons2, follows_cons2, pair_decide. cbn [tail] in *.
  intros Hb. rewrite not_elem_of_cons in Hb. destruct Hb as [Hby Hb].
  destruct (IH Hb) as [-> ->].
  rewrite bool_decide_false; [done|intros [? ?]; congruence].
Qed.

Lemma occurrences_not_in (a b : string) (seq : list string) :
  a ∉ seq → occurrences a b seq = 0 ∧ follows a b seq = false.
Proof.
  induction seq as [|x [|y rest] IH]; [done..|].
  rewrite occurrences_cons2, follows_cons2, pair_decide.
  intros Ha. rewrite not_elem_of_cons in Ha. destruct Ha as [Hax Ha].
  destruct (IH Ha) as [-> ->].
  rewrite bool_decide_false; [done|intros [? ?]; congruence].
Qed.

Lemma occurrences_NoDup (a b : string) (seq : list string) :
  NoDup seq →
  occurrences a b seq = if follows a b seq then 1 else 0.
Proof.
  induction seq as [|x [|y rest] IH]; [done..|].
  rewrite occurrences_cons2, follows_cons2, pair_decide.
  intros Hnodup. apply NoDup_cons in Hnodup as [Hx Hnodup].
  case_bool_decide as Hxy.
  - destruct Hxy as [-> ->].
    by destruct (occurrences_not_in a b (b :: rest) Hx) as [-> _].
  - by rewrite (IH Hnodup).
Qed.

Lemma occurrences_build_sequence (a b : string) (seq : list string) :
  is_build_sequence seq →
  occurrences a b seq = if follows a b seq then 1 else 0.
Proof.
  intros (l & -> & Hnodup). destruct l as [|y rest]; [done|].
  rewrite occurrences_cons2, follows_cons2, pair_decide.
  rewrite (occurrences_NoDup a b _ Hnodup).
  case_bool_decide as Hxy; [|done].
  destruct Hxy as [<- <-]. apply NoDup_cons in Hnodup as [Hy _].
  by destruct (occurrences_not_in_tail START y (y :: rest) Hy) as [_ ->].
Qed.

(** ** Accounting for scores *)

Lemma getitem_default_set_item {V : Type} (dflt v : V)
    (d : list (string * V)) (k k' : string) :
  getitem_default dflt (set_item d k v) k'
  = if decide (k = k') then v else getitem_default dflt d k'.
Proof.
  unfold getitem_default. destruct (decide (k = k')) as [<-|Hne].
  - by rewrite get_set_item_eq.
  - by rewrite get_set_item_ne.
Qed.

Lemma when_True (P : Prop) `{Decision P} (w : Q) : P → when P w = w.
Proof. intros HP. unfold when. by rewrite decide_True. Qed.

Lemma when_False (P : Prop) `{Decision P} (w : Q) : ¬ P → when P w = 0%Q.
Proof. intros HP. unfold when. by rewrite decide_False. Qed.

Lemma score_add_score (row : successors) (b b' : string) (w : Q) :
  (getitem_default 0 (add_score row b w) b'
   == getitem_default 0 row b' + when (b = b') w)%Q.
Proof.
  unfold add_score. rewrite getitem_default_set_item.
  destruct (decide (b = b')) as [<-|Hne].
  - rewrite when_True by done. apply Qred_correct.
  - rewrite when_False by done. ring.
Qed.

Lemma edge_add_edge (t : transitions) (a b a' b' : string) (w : Q) :
  (edge (add_edge t a b w) a' b'
   == edge t a' b' + when (a = a' ∧ b = b') w)%Q.
Proof.
  unfold edge, add_edge. rewrite getitem_default_set_item.
  destruct (decide (a = a')) as [<-|Hne].
  - rewrite score_add_score. unfold when.
    destruct (decide (b = b')).
    + by rewrite decide_True.
    + rewrite decide_False; [done|]. by intros [_ ?].
  - rewrite when_False; [ring|]. by intros [? _].
Qed.

Lemma general_edge_learn (g : general_table) (c a b c' a' b' : string)
    (w : Q) :
  (general_edge (learn_general g c a b w) c' a' b'
   == general_edge g c' a' b' + when (c = c' ∧ a = a' ∧ b = b') w)%Q.
Proof.
  unfold general_edge, learn_general. rewrite getitem_default_set_item.
  destruct (decide (c = c')) as [<-|Hne].
  - rewrite edge_add_edge. unfold when.
    destruct (decide (a = a' ∧ b = b')).
    + by rewrite decide_True.
    + rewrite decide_False; [done|]. by intros [_ ?].
  - rewrite when_False; [ring|]. by intros [? _].
Qed.

Lemma specific_edge_learn (s : specific_table) (c e a b c' e' a' b' : string)
    (w : Q) :
  (specific_edge (learn_specific s c e a b w) c' e' a' b'
   == specific_edge s c' e' a' b'
      + when (c = c' ∧ e = e' ∧ a = a' ∧ b = b') w)%Q.
Proof.
  unfold specific_edge, learn_specific. rewrite getitem_default_set_item.
  destruct (decide (c = c')) as [<-|Hne].
  - rewrite getitem_default_set_item. destruct (decide (e = e')) as [<-|Hne].
    + rewrite edge_add_edge. unfold when.
      destruct (decide (a = a' ∧ b = b')).
      * by rewrite decide_True.
      * rewrite decide_False; [done|]. by intros (_ & _ & ?).
    + rewrite when_False; [ring|]. by intros (_ & ? & _).
  - rewrite when_False; [ring|]. by intros [? _].
Qed.

Lemma times_S (n : nat) : (times (S n) == 1 + times n)%Q.
Proof.
  unfold times. rewrite Nat2Z.inj_succ, <- Z.add_1_l, inject_Z_plus. done.
Qed.

Lemma learn_sequence_cons2 (c e : string) (w : Q) (x y : string)
    (rest : list string) (mem : specific_table * general_table) :
  learn_sequence c e w (x :: y :: rest) mem
  = learn_sequence c e w (y :: rest)
      (learn_specific mem.1 c e x y w, learn_general mem.2 c x y w).
Proof. reflexivity. Qed.

Lemma when_pair_times (P R : Prop) `{Decision P} `{Decision R} (w : Q)
    (n : nat) :
  (when (P ∧ R) w + when P (w * times n)
   == when P (w * times ((if bool_decide R then 1 else 0) + n)))%Q.
Proof.
  unfold when. destruct (decide P) as [HP|HP].
  - destruct (decide R) as [HR|HR].
    + rewrite decide_True, bool_decide_true by done.
      change (1 + n)%nat with (S n). rewrite times_S. ring.
    + rewrite decide_False, bool_decide_false by tauto. simpl. ring.
  - rewrite decide_False by tauto. ring.
Qed.

Lemma general_edge_learn_sequence (c e : string) (w : Q) (seq : list string)
    (mem : specific_table * general_table) (c' a b : string) :
  (general_edge (learn_sequence c e w seq mem).2 c' a b
   == general_edge mem.2 c' a b
      + when (c = c') (w * times (occurrences a b seq)))%Q.
Proof.
  revert mem. induction seq as [|x [|y rest] IH]; intros mem.
  - unfold when, times. simpl. destruct (decide _); ring.
  - unfold when, times. simpl. destruct (decide _); ring.
  - rewrite learn_sequence_cons2, IH, occurrences_cons2. cbn [snd].
    rewrite general_edge_learn, <- Qplus_assoc.
    apply Qplus_comp; [done|]. apply when_pair_times.
Qed.

Lemma specific_edge_learn_sequence (c e : string) (w : Q) (seq : list string)
    (mem : specific_table * general_table) (c' e' a b : string) :
  (specific_edge (learn_sequence c e w seq mem).1 c' e' a b
   == specific_edge mem.1 c' e' a b
      + when (c = c' ∧ e = e') (w * times (occurrences a b seq)))%Q.
Proof.
  revert mem. induction seq as [|x [|y rest] IH]; intros mem.
  - unfold when, times. simpl. destruct (decide _); ring.
  - unfold when, times. simpl. destruct (decide _); ring.
  - rewrite learn_sequence_cons2, IH, occurrences_cons2. cbn [fst].
    rewrite specific_edge_learn, <- Qplus_assoc.
    apply Qplus_comp; [done|].
    rewrite <- (when_pair_times (c = c' ∧ e = e') (x = a ∧ y = b)).
    apply Qplus_comp; [|done]. unfold when.
    destruct (decide (c = c' ∧ e = e' ∧ x = a ∧ y = b)).
    + rewrite decide_True; [done|tauto].
    + rewrite decide_False; [done|tauto].
Qed.

(** ** Summing over the corpus *)

Lemma times_plus (n m : nat) : (times (n + m) == times n + times m)%Q.
Proof. unfold times. by rewrite Nat2Z.inj_add, inject_Z_plus. Qed.

Lemma count_general_cons (o : observation) (obs : list observation)
    (c a b : string) (w : bool) :
  count_general (o :: obs) c a b w
  = (count_general [o] c a b w + count_general obs c a b w)%nat.
Proof.
  unfold count_general. rewrite !filter_cons, filter_nil.
  by destruct (decide _).
Qed.

Lemma count_general_one (o : observation) (c a b : string) (w : bool) :
  count_general [o] c a b w
  = if decide (obs_champ o = c ∧ obs_win o = w
               ∧ follows a b (obs_sequence o) = true)
    then 1 else 0.
Proof.
  unfold count_general. rewrite filter_cons, filter_nil. by destruct (decide _).
Qed.

Lemma contribution_general (o : observation) (c a b : string) :
  is_build_sequence (obs_sequence o) →
  (when (obs_champ o = c)
     (weight_of (obs_win o) * times (occurrences a b (obs_sequence o)))
   == 3 * times (count_general [o] c a b true)
      + (1 # 2) * times (count_general [o] c a b false))%Q.
Proof.
  intros Hseq. rewrite (occurrences_build_sequence a b _ Hseq).
  rewrite !count_general_one. unfold when.
  destruct (decide (obs_champ o = c)) as [Hc|Hc]; last first.
  { rewrite !decide_False by tauto. unfold times. simpl. ring. }
  destruct (follows a b (obs_sequence o)) eqn:Hf; last first.
  { rewrite !decide_False by (intros (_ & _ & ?); done).
    unfold times. simpl. ring. }
  destruct (obs_win o) eqn:Hw.
  - rewrite decide_True, decide_False by (try tauto; intros (_ & ? & _); done).
    unfold times, weight_of. simpl. ring.
  - rewrite decide_False, decide_True by (try tauto; intros (_ & ? & _); done).
    unfold times, weight_of. simpl. ring.
Qed.

Lemma general_edge_foldl_learn (obs : list observation)
    (mem : specific_table * general_table) (c a b : string) :
  Forall (λ o, is_build_sequence (obs_sequence o)) obs →
  (general_edge (foldl learn mem obs).2 c a b
   == general_edge mem.2 c a b
      + (3 * times (count_general obs c a b true)
         + (1 # 2) * times (count_general obs c a b false)))%Q.
Proof.
  intros Hobs. revert mem.
  induction Hobs as [|o obs Ho _ IH]; intros mem.
  - unfold count_general, times. simpl. ring.
  - cbn [foldl]. rewrite IH. unfold learn.
    rewrite general_edge_learn_sequence, (contribution_general _ _ _ _ Ho).
    rewrite (count_general_cons o obs c a b true).
    rewrite (count_general_cons o obs c a b false).
    rewrite !times_plus. ring.
Qed.

Lemma count_specific_cons (o : observation) (obs : list observation)
    (c e a b : string) (w : bool) :
  count_specific (o :: obs) c e a b w
  = (count_specific [o] c e a b w + count_specific obs c e a b w)%nat.
Proof.
  unfold count_specific. rewrite !filter_cons, filter_nil.
  destruct (decide (obs_enemy o = e)); [|done].
  apply count_general_cons.
Qed.

Lemma count_specific_one (o : observation) (c e a b : string) (w : bool) :
  count_specific [o] c e a b w
  = if decide (obs_enemy o = e) then count_general [o] c a b w else 0.
Proof.
  unfold count_specific. rewrite filter_cons, filter_nil.
  by destruct (decide _).
Qed.

Lemma contribution_specific (o : observation) (c e a b : string) :
  is_build_sequence (obs_sequence o) →
  (when (obs_champ o = c ∧ obs_enemy o = e)
     (weight_of (obs_win o) * times (occurrences a b (obs_sequence o)))
   == 3 * times (count_specific [o] c e a b true)
      + (1 # 2) * times (count_specific [o] c e a b false))%Q.
Proof.
  intros Hseq. rewrite !count_specific_one.
  destruct (decide (obs_enemy o = e)) as [He|He].
  - rewrite <- (contribution_general o c a b Hseq). unfold when.
    destruct (decide (obs_champ o = c)).
    + by rewrite decide_True.
    + rewrite decide_False; [done|tauto].
  - rewrite when_False by tauto. unfold times. simpl. ring.
Qed.

Lemma specific_edge_foldl_learn (obs : list observation)
    (mem : specific_table * general_table) (c e a b : string) :
  Forall (λ o, is_build_sequence (obs_sequence o)) obs →
  (specific_edge (foldl learn mem obs).1 c e a b
   == specific_edge mem.1 c e a b
      + (3 * times (count_specific obs c e a b true)
         + (1 # 2) * times (count_specific obs c e a b false)))%Q.
Proof.
  intros Hobs. revert mem.
  induction Hobs as [|o obs Ho _ IH]; intros mem.
  - unfold count_specific, count_general, times. simpl. ring.
  - cbn [foldl]. rewrite IH. unfold learn.
    rewrite specific_edge_learn_sequence, (contribution_specific _ _ _ _ _ Ho).
    rewrite (count_specific_cons o obs c e a b true).
    rewrite (count_specific_cons o obs c e a b false).
    rewrite !times_plus. ring.
Qed.

(** ** Training keeps the tables well formed *)

Lemma is_final_item_present (item_data : catalog) (x : string) :
  is_final_item x item_data = true → final_in item_data x.
Proof.
  intros Hfinal. split; [|done].
  apply is_final_item_iff in Hfinal as (info & -> & _). by eexists.
Qed.

Lemma weight_of_pos (w : bool) : (0 < weight_of w)%Q.
Proof. by destruct w. Qed.

Lemma getitem_default_elem_of {V : Type} (d : list (string * list V))
    (k : string) (x : V) :
  x ∈ getitem_default [] d k → (k, getitem_default [] d k) ∈ d.
Proof.
  unfold getitem_default. destruct (get d k) as [v|] eqn:Hget; simpl.
  - intros _. by apply get_Some_elem_of.
  - by intros ?%elem_of_nil.
Qed.

Lemma add_score_ok (item_data : catalog) (row : successors) (b : string)
    (w : Q) :
  (∀ b' q, (b', q) ∈ row → final_in item_data b' ∧ (0 < q)%Q) →
  final_in item_data b → (0 < w)%Q →
  ∀ b' q, (b', q) ∈ add_score row b w → final_in item_data b' ∧ (0 < q)%Q.
Proof.
  intros Hrow Hb Hw b' q Hin. unfold add_score in Hin.
  apply elem_of_set_item in Hin as [Hin|[-> ->]]; [by apply Hrow|].
  split; [done|]. rewrite Qred_correct. unfold getitem_default.
  destruct (get row b) as [q0|] eqn:Hget; simpl.
  - apply get_Some_elem_of, Hrow in Hget as [_ Hq0].
    apply Qlt_trans with q0; [done|].
    rewrite <- (Qplus_0_r q0) at 1. by apply Qplus_lt_r.
  - by rewrite Qplus_0_l.
Qed.

Lemma add_edge_ok (item_data : catalog) (t : transitions) (a b : string)
    (w : Q) :
  transitions_ok item_data t →
  node_ok item_data a → final_in item_data b → (0 < w)%Q →
  transitions_ok item_data (add_edge t a b w).
Proof.
  intros Ht Ha Hb Hw a' row Hin. unfold add_edge in Hin.
  apply elem_of_set_item in Hin as [Hin|[-> ->]]; [by apply Ht|].
  split; [done|]. apply add_score_ok; [|done..].
  intros b' q Hq.
  pose proof (getitem_default_elem_of _ _ _ Hq) as Hrow.
  by apply (Ht _ _ Hrow).
Qed.

Lemma transitions_ok_default (item_data : catalog)
    (d : list (string * transitions)) (k : string) :
  (∀ k' t, (k', t) ∈ d → transitions_ok item_data t) →
  transitions_ok item_data (getitem_default [] d k).
Proof.
  intros Hd a row Hin.
  pose proof (getitem_default_elem_of _ _ _ Hin) as Ht.
  by apply (Hd _ _ Ht).
Qed.

Lemma learn_general_ok (item_data : catalog) (g : general_table)
    (c a b : string) (w : Q) :
  general_ok item_data g →
  node_ok item_data a → final_in item_data b → (0 < w)%Q →
  general_ok item_data (learn_general g c a b w).
Proof.
  intros Hg Ha Hb Hw c' t Hin. unfold learn_general in Hin.
  apply elem_of_set_item in Hin as [Hin|[-> ->]]; [by eapply Hg|].
  apply add_edge_ok; [|done..]. by apply transitions_ok_default.
Qed.

Lemma learn_specific_ok (item_data : catalog) (s : specific_table)
    (c e a b : string) (w : Q) :
  specific_ok item_data s →
  node_ok item_data a → final_in item_data b → (0 < w)%Q →
  specific_ok item_data (learn_specific s c e a b w).
Proof.
  intros Hs Ha Hb Hw c' m e' t Hin Hin'. unfold learn_specific in Hin.
  apply elem_of_set_item in Hin as [Hin|[-> ->]]; [by eapply Hs|].
  assert (∀ e0 t0, (e0, t0) ∈ getitem_default [] s c →
                   transitions_ok item_data t0) as Hrow.
  { intros e0 t0 Hin0.
    pose proof (getitem_default_elem_of _ _ _ Hin0) as Hm.
    by apply (Hs _ _ _ _ Hm Hin0). }
  apply elem_of_set_item in Hin' as [Hin'|[-> ->]]; [by eapply Hrow|].
  apply add_edge_ok; [|done..]. by apply transitions_ok_default.
Qed.

Lemma learn_sequence_ok (item_data : catalog) (c e : string) (w : Q)
    (seq : list string) (mem : specific_table * general_table) :
  (0 < w)%Q →
  (∀ x, x ∈ seq → node_ok item_data x) →
  (∀ x, x ∈ tail seq → final_in item_data x) →
  specific_ok item_data mem.1 ∧ general_ok item_data mem.2 →
  specific_ok item_data (learn_sequence c e w seq mem).1
  ∧ general_ok item_data (learn_sequence c e w seq mem).2.
Proof.
  intros Hw. revert mem.
  induction seq as [|x [|y rest] IH]; intros mem Hnodes Htail [Hs Hg];
    [done..|].
  rewrite learn_sequence_cons2. cbn [tail] in *.
  assert (node_ok item_data x) as Hx by (apply Hnodes; left).
  assert (final_in item_data y) as Hy by (apply Htail; left).
  apply IH.
  - intros z Hz. right. by apply Htail.
  - intros z Hz. apply Htail. by right.
  - split; [by apply learn_specific_ok | by apply learn_general_ok].
Qed.

Lemma learn_ok (item_data : catalog) (files : list match_file)
    (o : observation) (mem : specific_table * general_table) :
  o ∈ observations item_data files →
  specific_ok item_data mem.1 ∧ general_ok item_data mem.2 →
  specific_ok item_data (learn mem o).1 ∧ general_ok item_data (learn mem o).2.
Proof.
  intros Ho Hmem. unfold observations in Ho.
  apply list_elem_of_bind in Ho as ([participants|] & Ho & _);
    [|by apply elem_of_nil in Ho].
  apply list_elem_of_fmap in Ho as (p & -> & _). unfold learn, observe. simpl.
  destruct (build_sequence_of_spec item_data p) as (l & -> & _ & Hfinal).
  apply learn_sequence_ok; [apply weight_of_pos| | |done].
  - intros x Hx. apply elem_of_cons in Hx as [->|Hx]; [by left|].
    right. by apply is_final_item_present, Hfinal.
  - intros x Hx. by apply is_final_item_present, Hfinal.
Qed.

Lemma foldl_learn_ok (item_data : catalog) (files : list match_file)
    (obs : list observation) (mem : specific_table * general_table) :
  (∀ o, o ∈ obs → o ∈ observations item_data files) →
  specific_ok item_data mem.1 ∧ general_ok item_data mem.2 →
  specific_ok item_data (foldl learn mem obs).1
  ∧ general_ok item_data (foldl learn mem obs).2.
Proof.
  revert mem. induction obs as [|o obs IH]; intros mem Hobs Hmem; [done|].
  simpl. apply IH.
  - intros o' Ho'. apply Hobs. by right.
  - eapply learn_ok; [|done]. apply Hobs. left.
Qed.

(** A training pass keeps well-formed memories well formed. *)
Lemma train_files_ok (item_data : catalog) (files : list match_file)
    (mem : specific_table * general_table) :
  specific_ok item_data mem.1 ∧ general_ok item_data mem.2 →
  specific_ok item_data (train_files item_data files mem).1
  ∧ general_ok item_data (train_files item_data files mem).2.
Proof.
  intros Hmem. rewrite train_files_learn.
  by apply (foldl_learn_ok item_data files).
Qed.

Lemma empty_memories_ok (item_data : catalog) :
  specific_ok item_data [] ∧ general_ok item_data [].
Proof.
  split.
  - by intros c m e t ?%elem_of_nil.
  - by intros c t ?%elem_of_nil.
Qed.

Lemma trained_ok (item_data : catalog) (files : list match_file) :
  let brain := MarkovTrainer.train (MarkovTrainer.init item_data) files in
  specific_ok item_data (MarkovTrainer.specific_memory brain)
  ∧ general_ok item_data (MarkovTrainer.general_memory brain).
Proof. apply train_files_ok, empty_memories_ok. Qed.

Lemma select_transitions_ok (item_data : catalog) (self : MarkovTrainer.brain)
    (my_champ : string) (enemy_champ : option string) (t : transitions) :
  specific_ok item_data (MarkovTrainer.specific_memory self) →
  general_ok item_data (MarkovTrainer.general_memory self) →
  MarkovTrainer.select_transitions self my_champ enemy_champ = Some t →
  transitions_ok item_data t.
Proof.
  intros Hs Hg. unfold MarkovTrainer.select_transitions.
  destruct (MarkovTrainer.use_specific _).
  - unfold MarkovTrainer.specific_data_of.
    destruct enemy_champ as [enemy|]; simpl; [|done].
    intros Hin%get_Some_elem_of.
    pose proof (getitem_default_elem_of _ _ _ Hin) as Hm.
    by apply (Hs _ _ _ _ Hm Hin).
  - intros Hin%get_Some_elem_of. by apply (Hg _ _ Hin).
Qed.

Lemma greedy_path_final (item_data : catalog) (t : transitions)
    (path : list string) :
  transitions_ok item_data t → greedy_path t path →
  ∀ x, x ∈ path → final_in item_data x.
Proof.
  intros Ht. induction 1 as [|path next_options b s _ IH Hget (Hin & _)];
    intros x Hx.
  - by apply elem_of_nil in Hx.
  - apply elem_of_app in Hx as [Hx|Hx]; [by apply IH|].
    apply list_elem_of_singleton in Hx as ->.
    apply get_Some_elem_of in Hget.
    destruct (Ht _ _ Hget) as [_ Hrow]. by apply (Hrow b s).
Qed.

Lemma recommend_build_path (self : MarkovTrainer.brain) (my_champ : string)
    (enemy_champ : option string) (path : list string) :
  MarkovTrainer.returned
    (MarkovTrainer.recommend_build self my_champ enemy_champ) = Some path →
  ∃ t, MarkovTrainer.select_transitions self my_champ enemy_champ = Some t
       ∧ greedy_path t path.
Proof.
  unfold MarkovTrainer.recommend_build.
  destruct (MarkovTrainer.select_transitions _ _ _) as [[|e t]|]; [done| |done].
  cbn [truthy negb MarkovTrainer.returned]. intros [= <-].
  exists (e :: t). split; [done|].
  by destruct (markov_walk_inv (MarkovTrainer.item_data self) (e :: t))
    as (_ & _ & Hpath & _).
Qed.

(** C10.  After training from empty memories, every key of a table of the
    general memory, and of a table of the specific memory, is [START] or an
    identifier that is in the catalog and passes [is_final_item]; every
    successor stored under such a key is an identifier that is in the catalog
    and passes [is_final_item].  Hence every item a query on the trained
    brain returns is in the catalog and final. *)
Theorem trained_nodes_are_final (item_data : catalog)
    (files : list match_file) :
  let brain := MarkovTrainer.train (MarkovTrainer.init item_data) files in
  (∀ c t a row,
     (c, t) ∈ MarkovTrainer.general_memory brain → (a, row) ∈ t →
     (a = START
      ∨ (is_Some (get item_data a) ∧ is_final_item a item_data = true))
     ∧ ∀ b q, (b, q) ∈ row →
         is_Some (get item_data b) ∧ is_final_item b item_data = true)
  ∧ (∀ c m e t a row,
       (c, m) ∈ MarkovTrainer.specific_memory brain → (e, t) ∈ m →
       (a, row) ∈ t →
       (a = START
        ∨ (is_Some (get item_data a) ∧ is_final_item a item_data = true))
       ∧ ∀ b q, (b, q) ∈ row →
           is_Some (get item_data b) ∧ is_final_item b item_data = true)
  ∧ (∀ my_champ enemy_champ path,
       MarkovTrainer.returned
         (MarkovTrainer.recommend_build brain my_champ enemy_champ)
       = Some path →
       ∀ x, x ∈ path →
         is_Some (get item_data x) ∧ is_final_item x item_data = true).
Proof.
  intros brain. destruct (trained_ok item_data files) as [Hs Hg].
  fold brain in Hs, Hg. split; [|split].
  - intros c t a row Hc Ha. destruct (Hg c t Hc a row Ha) as [Hnode Hrow].
    split; [done|]. intros b q Hb. by apply (Hrow b q).
  - intros c m e t a row Hc He Ha.
    destruct (Hs c m e t Hc He a row Ha) as [Hnode Hrow].
    split; [done|]. intros b q Hb. by apply (Hrow b q).
  - intros my_champ enemy_champ path Hpath x Hx.
    apply recommend_build_path in Hpath as (t & Hsel & Hgreedy).
    eapply greedy_path_final; [|done..].
    by eapply select_transitions_ok.
Qed.

(** ** The scores of a trained brain *)

Lemma times_nonneg (n : nat) : (0 <= times n)%Q.
Proof. unfold times, Qle. simpl. lia. Qed.

Lemma times_ge_1 (n : nat) : (1 ≤ n)%nat → (1 <= times n)%Q.
Proof. intros Hn. unfold times, Qle. simpl. lia. Qed.

Lemma times_0 (n : nat) : n = 0%nat → (times n == 0)%Q.
Proof. by intros ->. Qed.

Lemma score_pos_iff (wins losses : nat) :
  (0 < 3 * times wins + (1 # 2) * times losses)%Q ↔ (0 < wins + losses)%nat.
Proof.
  split.
  - intros Hpos. destruct (decide (wins + losses = 0)%nat) as [Hz|]; [|lia].
    rewrite (times_0 wins), (times_0 losses) in Hpos by lia. lra.
  - intros Hpos. pose proof (times_nonneg wins). pose proof (times_nonneg losses).
    destruct (decide (1 ≤ wins)%nat) as [Hw|Hw].
    + pose proof (times_ge_1 _ Hw). lra.
    + assert (1 ≤ losses)%nat as Hl by lia.
      pose proof (times_ge_1 _ Hl). lra.
Qed.

Lemma stored_pos (item_data : catalog) (t : transitions) (a b : string)
    (q : Q) :
  transitions_ok item_data t → stored t a b = Some q → (0 < q)%Q.
Proof.
  intros Ht Hq%get_Some_elem_of.
  pose proof (getitem_default_elem_of _ _ _ Hq) as Hrow.
  destruct (Ht _ _ Hrow) as [_ Hok]. by apply (Hok b q).
Qed.

Lemma edge_stored (t : transitions) (a b : string) :
  edge t a b = default 0%Q (stored t a b).
Proof. reflexivity. Qed.

Lemma stored_iff_pos (item_data : catalog) (t : transitions) (a b : string) :
  transitions_ok item_data t →
  is_Some (stored t a b) ↔ (0 < edge t a b)%Q.
Proof.
  intros Ht. rewrite edge_stored. split.
  - intros [q Hq]. rewrite Hq. simpl. by eapply stored_pos.
  - destruct (stored t a b) as [q|]; [by eexists|]. simpl. intros Hlt.
    by apply Qlt_irrefl in Hlt.
Qed.

Lemma count_general_ge_1 (obs : list observation) (o : observation)
    (c a b : string) :
  o ∈ obs → obs_champ o = c → follows a b (obs_sequence o) = true →
  (1 ≤ count_general obs c a b (obs_win o))%nat.
Proof.
  intros Ho Hc Hf. unfold count_general.
  assert (o ∈ filter (λ o', obs_champ o' = c ∧ obs_win o' = obs_win o
                            ∧ follows a b (obs_sequence o') = true) obs) as Hin.
  { apply list_elem_of_filter. auto. }
  destruct (filter _ obs); [by apply elem_of_nil in Hin | simpl; lia].
Qed.


(** [marko.py] trains on fresh temporaries: it stores the tables that
    [markov_trainer.py] builds from empty memories. *)
Lemma marko_train_tables (item_data : catalog) (files : list match_file)
    (self : Marko.brain) :
  Marko.item_data self = item_data →
  let brain := MarkovTrainer.train (MarkovTrainer.init item_data) files in
  Marko.specific_memory (Marko.train self files).1
  = Marko.json_of_specific (MarkovTrainer.specific_memory brain)
  ∧ Marko.general_memory (Marko.train self files).1
    = Marko.json_of_general (MarkovTrainer.general_memory brain).
Proof. intros <-. done. Qed.

(** ** Participants without a lane opponent *)

Lemma train_participant_other_lane (item_data : catalog)
    (participants : list participant) (mem : specific_table * general_table)
    (p : participant) :
  lane p ∉ known_lanes →
  train_participant item_data participants mem p = mem.
Proof.
  intros Hlane. unfold train_participant. by rewrite bool_decide_false.
Qed.




(** ** Events that are not purchases *)

(** The purchase loop reads the [itemId] of an event and nothing else. *)
Lemma scan_purchases_ignores_type (item_data : catalog)
    (purchases purchases' : list purchase)
    (build_sequence processed_ids : list string) :
  itemId <$> purchases = itemId <$> purchases' →
  scan_purchases item_data purchases build_sequence processed_ids
  = scan_purchases item_data purchases' build_sequence processed_ids.
Proof.
  revert purchases' build_sequence processed_ids.
  induction purchases as [|pu purchases IH];
    intros [|pu' purchases'] build_sequence processed_ids; try done.
  intros [= Hid Hrest]. simpl. rewrite Hid.
  destruct (negb _); [by apply IH|].
  case_bool_decide; by apply IH.
Qed.

Lemma scan_purchases_skip (item_data : catalog) (purchases1 : list purchase)
    (ev : purchase) (purchases2 : list purchase)
    (build_sequence processed_ids : list string) :
  is_final_item (pretty (itemId ev)) item_data = false
  ∨ pretty (itemId ev) ∈ processed_ids
  ∨ (∃ ev0, ev0 ∈ purchases1 ∧ itemId ev0 = itemId ev) →
  scan_purchases item_data (purchases1 ++ ev :: purchases2)
    build_sequence processed_ids
  = scan_purchases item_data (purchases1 ++ purchases2)
      build_sequence processed_ids.
Proof.
  revert build_sequence processed_ids.
  induction purchases1 as [|pu purchases1 IH];
    intros build_sequence processed_ids Hskip.
  - simpl. destruct Hskip as [->|[Hin|(ev0 & Hin & _)]]; [done| |].
    + destruct (negb _); [done|]. by rewrite bool_decide_true.
    + by apply elem_of_nil in Hin.
  - simpl.
    destruct (is_final_item (pretty (itemId pu)) item_data) eqn:Hfinal; simpl.
    + case_bool_decide as Hseen.
      * apply IH. destruct Hskip as [?|[?|(ev0 & Hin & Hid)]]; auto.
        apply elem_of_cons in Hin as [->|Hin]; [|by eauto].
        right. left. by rewrite <- Hid.
      * apply IH. destruct Hskip as [?|[?|(ev0 & Hin & Hid)]]; auto.
        -- right. left. by right.
        -- apply elem_of_cons in Hin as [->|Hin]; [|by eauto].
           right. left. rewrite <- Hid. left.
    + apply IH. destruct Hskip as [?|[?|(ev0 & Hin & Hid)]]; auto.
      apply elem_of_cons in Hin as [->|Hin]; [|by eauto].
      left. by rewrite <- Hid.
Qed.

(** An event on an item that an earlier event of the same participant
    already concerned adds nothing to the build sequence, whatever its type:
    a sale or a destruction of an item bought before is absorbed. *)
Lemma scan_purchases_repeat (item_data : catalog)
    (purchases1 : list purchase) (ev0 ev : purchase)
    (purchases2 : list purchase) :
  ev0 ∈ purchases1 → itemId ev0 = itemId ev →
  scan_purchases item_data (purchases1 ++ ev :: purchases2) [START] []
  = scan_purchases item_data (purchases1 ++ purchases2) [START] [].
Proof. intros Hin Hid. apply scan_purchases_skip. eauto. Qed.

(** C6.  In the game [Demo.seller] Garen's only event on the final item 2001
    is a sale; training on that game alone stores the edge from [START] to
    that item, with the weight of a win, in both memories. *)
Theorem train_counts_sold_item :
  type <$> item_purchases (Demo.player "Garen" 100 "TOP" true
                             [Demo.event "ITEM_SOLD" 2001])
  = ["ITEM_SOLD"]
  ∧ MarkovTrainer.general_memory
      (MarkovTrainer.train (MarkovTrainer.init Demo.item_data)
         [Some Demo.seller])
    = [("Garen", [("START", [("2001", 3%Q)])])]
  ∧ MarkovTrainer.specific_memory
      (MarkovTrainer.train (MarkovTrainer.init Demo.item_data)
         [Some Demo.seller])
    = [("Garen", [("Darius", [("START", [("2001", 3%Q)])])])].
Proof. repeat split; reflexivity. Qed.

(** ** Queries that leave a trained brain alone *)

Lemma matchup_table_learn (s : specific_table) (c e a b : string) (w : Q) :
  matchup_table (learn_specific s c e a b w) c e
  = add_edge (matchup_table s c e) a b w.
Proof.
  unfold matchup_table, learn_specific.
  rewrite getitem_default_set_item, decide_True by done.
  by rewrite getitem_default_set_item, decide_True by done.
Qed.

Lemma get_add_edge_START (t : transitions) (a b : string) (w : Q) :
  a = START ∨ is_Some (get t START) →
  is_Some (get (add_edge t a b w) START).
Proof.
  intros Hstart. unfold add_edge. destruct (decide (a = START)) as [->|Hne].
  - rewrite get_set_item_eq. by eexists.
  - rewrite get_set_item_ne by done. by destruct Hstart.
Qed.

Lemma learn_specific_started (s : specific_table) (c e a b : string) (w : Q) :
  specific_started s →
  a = START ∨ is_Some (get (matchup_table s c e) START) →
  specific_started (learn_specific s c e a b w).
Proof.
  intros Hs Hstart c' m e' t Hin Hin'. unfold learn_specific in Hin.
  apply elem_of_set_item in Hin as [Hin|[-> ->]]; [by eapply Hs|].
  apply elem_of_set_item in Hin' as [Hin'|[-> ->]].
  - pose proof (getitem_default_elem_of _ _ _ Hin') as Hm.
    by apply (Hs _ _ _ _ Hm Hin').
  - by apply get_add_edge_START.
Qed.

Lemma learn_sequence_started (c e : string) (w : Q) (seq : list string)
    (mem : specific_table * general_table) :
  specific_started mem.1 →
  head seq = Some START ∨ is_Some (get (matchup_table mem.1 c e) START) →
  specific_started (learn_sequence c e w seq mem).1.
Proof.
  revert mem. induction seq as [|x [|y rest] IH]; intros mem Hs Hstart;
    [done..|].
  rewrite learn_sequence_cons2.
  assert (x = START ∨ is_Some (get (matchup_table mem.1 c e) START)) as Hx.
  { destruct Hstart as [[= ->]|?]; auto. }
  apply IH; cbn [fst].
  - by apply learn_specific_started.
  - right. rewrite matchup_table_learn. by apply get_add_edge_START.
Qed.

Lemma train_files_started (item_data : catalog) (files : list match_file)
    (mem : specific_table * general_table) :
  specific_started mem.1 →
  specific_started (train_files item_data files mem).1.
Proof.
  rewrite train_files_learn.
  pose proof (observations_build_sequences item_data files) as Hobs.
  revert mem. induction Hobs as [|o obs (l & Hseq & _) _ IH]; intros mem Hs;
    [done|].
  cbn [foldl]. apply IH. unfold learn. apply learn_sequence_started; [done|].
  left. by rewrite Hseq.
Qed.

(** On a brain whose matchup tables all have a [START] row, as every brain
    trained from empty memories has, a query about a champion that is a key
    of the specific memory changes nothing. *)
Lemma recommend_build_known_champion (self : MarkovTrainer.brain)
    (my_champ : string) (enemy_champ : option string) :
  specific_started (MarkovTrainer.specific_memory self) →
  is_Some (get (MarkovTrainer.specific_memory self) my_champ) →
  MarkovTrainer.after
    (MarkovTrainer.recommend_build self my_champ enemy_champ)
  = self.
Proof.
  intros Hs [m Hm].
  assert (MarkovTrainer.specific_after_reads self my_champ enemy_champ
          = MarkovTrainer.specific_memory self) as Hsame.
  { unfold MarkovTrainer.specific_after_reads.
    rewrite (touch_present _ _ _ _ Hm).
    destruct enemy_champ as [enemy|]; [|done].
    unfold getitem_default at 1. rewrite Hm. simpl.
    destruct (get m enemy) as [sd|] eqn:Hsd; [|done].
    destruct (truthy sd); [|done].
    destruct (Hs my_champ m enemy sd) as [row Hrow];
      [by apply get_Some_elem_of..|].
    unfold getitem_default. rewrite Hm. simpl.
    rewrite (touch_present _ _ _ _ Hrow).
    by rewrite (set_item_same m enemy sd Hsd), (set_item_same _ _ _ Hm). }
  unfold MarkovTrainer.recommend_build. rewrite Hsame.
  destruct self as [cat s g]. simpl.
  destruct (MarkovTrainer.select_transitions _ _ _) as [t|]; [|done].
  by destruct (negb (truthy t)).
Qed.

Lemma trained_started (item_data : catalog) (files : list match_file) :
  specific_started
    (MarkovTrainer.specific_memory
       (MarkovTrainer.train (MarkovTrainer.init item_data) files)).
Proof. apply train_files_started. by intros c m e t ?%elem_of_nil. Qed.

(** ** The scenario of the two Garen games *)

Example garen_general_table :
  MarkovTrainer.general_memory Demo.trained
  = [("Garen", [("START", [("2001", (7 # 2)%Q)]);
                ("2001", [("2002", 3%Q); ("2003", (1 # 2)%Q)])]);
     ("Darius", [("START", [("2003", (1 # 2)%Q)])])].
Proof. reflexivity. Qed.

Example garen_first_item :
  MarkovTrainer.returned
    (MarkovTrainer.recommend_build Demo.trained "Garen" (Some "Darius"))
  = Some ["2001"; "2002"]
  ∧ general_edge (MarkovTrainer.general_memory Demo.trained)
      "Garen" START "2001" = (7 # 2)%Q.
Proof. split; reflexivity. Qed.

(** * Further properties of the two advisors *)

(** ** The build sequence of a participant *)

Lemma remove_dups_snoc (l : list string) (x : string) :
  remove_dups (l ++ [x]) = filter (λ y, y ≠ x) (remove_dups l) ++ [x].
Proof.
  induction l as [|y l IH]; [done|].
  cbn [app remove_dups]. rewrite IH.
  destruct (decide_rel elem_of y (l ++ [x])) as [Hin|Hnin];
    destruct (decide_rel elem_of y l) as [Hin'|Hnin'].
  - done.
  - apply elem_of_app in Hin as [?|Hin]; [done|].
    apply list_elem_of_singleton in Hin as ->.
    by rewrite filter_cons_False by (intros ?; done).
  - exfalso. apply Hnin, elem_of_app. by left.
  - rewrite filter_cons_True; [done|].
    intros ->. apply Hnin, elem_of_app. right. left.
Qed.

Lemma first_occurrences_cons (x : string) (l : list string) :
  first_occurrences (x :: l) = x :: filter (λ y, y ≠ x) (first_occurrences l).
Proof.
  unfold first_occurrences. rewrite reverse_cons, remove_dups_snoc.
  rewrite reverse_app. simpl. by rewrite <- filter_reverse.
Qed.

Lemma filter_all {A : Type} (P : A → Prop) `{!∀ x, Decision (P x)}
    (l : list A) :
  (∀ x, x ∈ l → P x) → filter P l = l.
Proof.
  induction l as [|x l IH]; intros Hall; [done|].
  rewrite filter_cons_True by (apply Hall; left).
  f_equal. apply IH. intros y Hy. apply Hall. by right.
Qed.

Lemma length_remove_dups (l : list string) :
  (length (remove_dups l) ≤ length l)%nat.
Proof.
  induction l as [|x l IH]; simpl; [done|].
  destruct (decide_rel elem_of x l); simpl; lia.
Qed.

Lemma scan_purchases_first_occurrences (item_data : catalog)
    (purchases : list purchase) (build_sequence processed_ids : list string) :
  scan_purchases item_data purchases build_sequence processed_ids
  = build_sequence
    ++ filter (λ x, x ∉ processed_ids)
         (first_occurrences
            (filter (λ x, is_final_item x item_data = true)
               (purchase_ids purchases))).
Proof.
  revert build_sequence processed_ids.
  induction purchases as [|pu purchases IH];
    intros build_sequence processed_ids.
  - simpl. by rewrite app_nil_r.
  - cbn [scan_purchases purchase_ids fmap list_fmap]. rewrite filter_cons.
    fold (purchase_ids purchases).
    destruct (is_final_item (pretty (itemId pu)) item_data) eqn:Hfinal.
    + rewrite decide_True by done. cbn [negb].
      rewrite first_occurrences_cons, filter_cons.
      case_bool_decide as Hseen.
      * rewrite decide_False by (intros Hnot; by apply Hnot).
        rewrite IH, list_filter_filter. f_equal. apply list_filter_iff.
        intros x. split; [|tauto]. intros Hx. split; [done|]. by intros ->.
      * rewrite decide_True by done.
        rewrite IH, <- app_assoc, list_filter_filter. simpl. do 2 f_equal.
        apply list_filter_iff. intros x. rewrite not_elem_of_cons. tauto.
    + rewrite decide_False by (by intros ?). cbn [negb]. apply IH.
Qed.

(** X1.  The build sequence of a participant is [START] followed by the
    identifiers of their events that pass the final-item filter, each kept at
    its first occurrence and in the order of the events.  So it has no
    repetition, and an identifier is in it exactly when some event carries it
    and it is a final item. *)
Theorem build_sequence_first_occurrences (item_data : catalog)
    (p : participant) :
  let finals :=
    filter (λ x, is_final_item x item_data = true)
      (purchase_ids (item_purchases p)) in
  build_sequence_of item_data p = START :: first_occurrences finals
  ∧ NoDup (first_occurrences finals)
  ∧ (∀ x, x ∈ first_occurrences finals
          ↔ x ∈ purchase_ids (item_purchases p)
            ∧ is_final_item x item_data = true)
  ∧ (length (build_sequence_of item_data p)
     ≤ S (length (item_purchases p)))%nat.
Proof.
  intros finals.
  assert (build_sequence_of item_data p = START :: first_occurrences finals)
    as Heq.
  { unfold build_sequence_of. rewrite scan_purchases_first_occurrences.
    simpl. f_equal. apply filter_all.
    intros x _. apply not_elem_of_nil. }
  assert (NoDup (first_occurrences finals)) as Hnodup.
  { unfold first_occurrences. rewrite reverse_Permutation.
    apply NoDup_remove_dups. }
  split; [done|]. split; [done|]. split.
  - intros x. unfold first_occurrences, finals.
    rewrite elem_of_reverse, elem_of_remove_dups, elem_of_reverse,
      list_elem_of_filter. tauto.
  - rewrite Heq. simpl. apply le_n_S.
    unfold first_occurrences. rewrite length_reverse.
    etrans; [apply length_remove_dups|].
    rewrite length_reverse. unfold finals.
    etrans; [apply length_filter|].
    unfold purchase_ids. by rewrite length_fmap.
Qed.

(** ** The direct opponent *)

Lemma find_opponent_cons (my_team : Z) (my_lane : string) (opp : participant)
    (rest : list participant) :
  find_opponent my_team my_lane (opp :: rest)
  = if decide (faces my_team my_lane opp) then Some opp
    else find_opponent my_team my_lane rest.
Proof.
  simpl. unfold faces.
  destruct (Z.eqb_spec (teamId opp) my_team) as [Ht|Ht]; simpl.
  - rewrite decide_False; [done|]. by intros [? _].
  - case_bool_decide as Hl.
    + by rewrite decide_True.
    + rewrite decide_False; [done|]. by intros [_ ?].
Qed.

(** X2.  [find_opponent] returns the first participant of the match, in
    record order, who is on another team and on the same lane, and [None]
    exactly when the match has no such participant.  The opponent found is
    never on the player's own team, hence never the player. *)
Theorem find_opponent_first (my_team : Z) (my_lane : string)
    (participants : list participant) :
  (find_opponent my_team my_lane participants = None
   ↔ ∀ q, q ∈ participants → ¬ faces my_team my_lane q)
  ∧ (∀ opp,
       find_opponent my_team my_lane participants = Some opp
       ↔ ∃ before after,
           participants = before ++ opp :: after
           ∧ faces my_team my_lane opp
           ∧ ∀ q, q ∈ before → ¬ faces my_team my_lane q).
Proof.
  induction participants as [|q0 rest [IHnone IHsome]].
  - split.
    + split; [|done]. by intros _ q ?%elem_of_nil.
    + intros opp. split; [done|].
      intros (before & after & Heq & _). by destruct before.
  - rewrite find_opponent_cons. split.
    + destruct (decide (faces my_team my_lane q0)) as [Hq0|Hq0].
      * split; [done|]. intros Hall. destruct (Hall q0); [left|done].
      * rewrite IHnone. split.
        -- intros Hall q Hq. apply elem_of_cons in Hq as [->|Hq]; auto.
        -- intros Hall q Hq. apply Hall. by right.
    + intros opp. destruct (decide (faces my_team my_lane q0)) as [Hq0|Hq0].
      * split.
        -- intros [= Heq]; subst opp. exists [], rest. split; [done|]. split; [done|].
           by intros q ?%elem_of_nil.
        -- intros ([|b before] & after & Heq & Hopp & Hbefore).
           ++ by injection Heq as -> _.
           ++ injection Heq as -> _. destruct (Hbefore b); [left|done].
      * rewrite IHsome. split.
        -- intros (before & after & -> & Hopp & Hbefore).
           exists (q0 :: before), after. split; [done|]. split; [done|].
           intros q Hq. apply elem_of_cons in Hq as [->|Hq]; auto.
        -- intros ([|b before] & after & Heq & Hopp & Hbefore).
           ++ injection Heq as -> _. done.
           ++ injection Heq as -> ->. exists before, after.
              split; [done|]. split; [done|].
              intros q Hq. apply Hbefore. by right.
Qed.

(** ** Files and participants that training passes over *)

Lemma find_opponent_known_lanes (my_team : Z) (my_lane : string)
    (participants : list participant) :
  my_lane ∈ known_lanes →
  find_opponent my_team my_lane
    (filter (λ p, lane p ∈ known_lanes) participants)
  = find_opponent my_team my_lane participants.
Proof.
  intros Hlane. induction participants as [|q rest IH]; [done|].
  rewrite filter_cons, (find_opponent_cons _ _ q rest).
  destruct (decide (lane q ∈ known_lanes)) as [Hq|Hq].
  - rewrite find_opponent_cons. by rewrite IH.
  - rewrite decide_False; [done|]. intros [_ Heq]. by rewrite Heq in Hq.
Qed.

Lemma observations_clean_corpus (item_data : catalog)
    (files : list match_file) :
  observations item_data (clean_corpus files) = observations item_data files.
Proof.
  unfold observations, clean_corpus.
  induction files as [|[participants|] files IH]; [done| |done].
  cbn [mbind list_bind app]. rewrite IH. f_equal.
  rewrite (filter_all _ (filter _ participants));
    [|by intros p [? _]%list_elem_of_filter].
  apply Forall_fmap_ext, Forall_forall.
  intros p [Hlane _]%list_elem_of_filter. unfold observe, enemy_champ_of.
  by rewrite find_opponent_known_lanes.
Qed.

(** X3.  Training never looks at a file that fails to load nor at a
    participant whose lane is none of the five, not even as somebody's
    opponent: taking both out of the corpus leaves the trained memories
    exactly as they are, from any starting memories. *)
Theorem train_clean_corpus (self : MarkovTrainer.brain)
    (files : list match_file) :
  MarkovTrainer.train self (clean_corpus files) = MarkovTrainer.train self files.
Proof.
  unfold MarkovTrainer.train.
  by rewrite !train_files_learn, observations_clean_corpus.
Qed.

(** ** Training on top of what is already there *)

Lemma train_general_edge (self : MarkovTrainer.brain) (files : list match_file)
    (c a b : string) :
  let obs := observations (MarkovTrainer.item_data self) files in
  (general_edge (MarkovTrainer.general_memory (MarkovTrainer.train self files))
     c a b
   == general_edge (MarkovTrainer.general_memory self) c a b
      + (3 * times (count_general obs c a b true)
         + (1 # 2) * times (count_general obs c a b false)))%Q.
Proof.
  intros obs. unfold MarkovTrainer.train.
  cbn [MarkovTrainer.general_memory]. rewrite train_files_learn.
  exact (general_edge_foldl_learn _
           (MarkovTrainer.specific_memory self,
            MarkovTrainer.general_memory self) c a b
           (observations_build_sequences _ files)).
Qed.

Lemma train_specific_edge (self : MarkovTrainer.brain)
    (files : list match_file) (c e a b : string) :
  let obs := observations (MarkovTrainer.item_data self) files in
  (specific_edge
     (MarkovTrainer.specific_memory (MarkovTrainer.train self files)) c e a b
   == specific_edge (MarkovTrainer.specific_memory self) c e a b
      + (3 * times (count_specific obs c e a b true)
         + (1 # 2) * times (count_specific obs c e a b false)))%Q.
Proof.
  intros obs. unfold MarkovTrainer.train.
  cbn [MarkovTrainer.specific_memory]. rewrite train_files_learn.
  exact (specific_edge_foldl_learn _
           (MarkovTrainer.specific_memory self,
            MarkovTrainer.general_memory self) c e a b
           (observations_build_sequences _ files)).
Qed.

Lemma trained_general_edge (item_data : catalog) (files : list match_file)
    (c a b : string) :
  let obs := observations item_data files in
  (general_edge
     (MarkovTrainer.general_memory
        (MarkovTrainer.train (MarkovTrainer.init item_data) files)) c a b
   == 3 * times (count_general obs c a b true)
      + (1 # 2) * times (count_general obs c a b false))%Q.
Proof.
  intros obs. rewrite train_general_edge. cbn [MarkovTrainer.init
    MarkovTrainer.item_data MarkovTrainer.general_memory].
  change (general_edge [] c a b) with 0%Q. unfold obs. ring.
Qed.

Lemma trained_specific_edge (item_data : catalog) (files : list match_file)
    (c e a b : string) :
  let obs := observations item_data files in
  (specific_edge
     (MarkovTrainer.specific_memory
        (MarkovTrainer.train (MarkovTrainer.init item_data) files)) c e a b
   == 3 * times (count_specific obs c e a b true)
      + (1 # 2) * times (count_specific obs c e a b false))%Q.
Proof.
  intros obs. rewrite train_specific_edge. cbn [MarkovTrainer.init
    MarkovTrainer.item_data MarkovTrainer.specific_memory].
  change (specific_edge [] c e a b) with 0%Q. unfold obs. ring.
Qed.

(** X4.  [train] of [markov_trainer.py] adds to the memories it finds.  On a
    brain trained from empty memories (on any earlier corpus), after a
    further pass every score of the general and of the specific memory is the
    score before the pass plus three per winning and one half per losing
    build sequence of the new files that takes the edge.  A second pass over
    the same files adds the same amounts once more: nothing resets the
    memories between two passes. *)
Theorem train_accumulates (item_data : catalog)
    (earlier files : list match_file) (c e a b : string) :
  let self := MarkovTrainer.train (MarkovTrainer.init item_data) earlier in
  let obs := observations item_data files in
  let once := MarkovTrainer.train self files in
  let twice := MarkovTrainer.train once files in
  (general_edge (MarkovTrainer.general_memory once) c a b
   == general_edge (MarkovTrainer.general_memory self) c a b
      + (3 * times (count_general obs c a b true)
         + (1 # 2) * times (count_general obs c a b false)))%Q
  ∧ (specific_edge (MarkovTrainer.specific_memory once) c e a b
     == specific_edge (MarkovTrainer.specific_memory self) c e a b
        + (3 * times (count_specific obs c e a b true)
           + (1 # 2) * times (count_specific obs c e a b false)))%Q
  ∧ (general_edge (MarkovTrainer.general_memory twice) c a b
     - general_edge (MarkovTrainer.general_memory once) c a b
     == general_edge (MarkovTrainer.general_memory once) c a b
        - general_edge (MarkovTrainer.general_memory self) c a b)%Q
  ∧ (specific_edge (MarkovTrainer.specific_memory twice) c e a b
     - specific_edge (MarkovTrainer.specific_memory once) c e a b
     == specific_edge (MarkovTrainer.specific_memory once) c e a b
        - specific_edge (MarkovTrainer.specific_memory self) c e a b)%Q.
Proof.
  intros self obs once twice.
  pose proof (train_general_edge self files c a b) as Hg1.
  pose proof (train_specific_edge self files c e a b) as Hs1.
  pose proof (train_general_edge once files c a b) as Hg2.
  pose proof (train_specific_edge once files c e a b) as Hs2.
  cbn zeta in Hg1, Hs1, Hg2, Hs2.
  change (MarkovTrainer.item_data self) with item_data in Hg1, Hs1.
  change (MarkovTrainer.item_data once) with item_data in Hg2, Hs2.
  fold once in Hg1, Hs1, Hg2, Hs2. fold twice in Hg2, Hs2.
  fold obs in Hg1, Hs1, Hg2, Hs2.
  split; [done|]. split; [done|]. split.
  - rewrite Hg2, Hg1. ring.
  - rewrite Hs2, Hs1. ring.
Qed.

(** ** The order of the files *)

Lemma observations_Permutation (item_data : catalog)
    (files files' : list match_file) :
  files ≡ₚ files' →
  observations item_data files ≡ₚ observations item_data files'.
Proof. intros Hperm. unfold observations. by rewrite Hperm. Qed.

Lemma count_general_Permutation (obs obs' : list observation)
    (c a b : string) (w : bool) :
  obs ≡ₚ obs' → count_general obs c a b w = count_general obs' c a b w.
Proof. intros Hperm. unfold count_general. by rewrite Hperm. Qed.

Lemma count_specific_Permutation (obs obs' : list observation)
    (c e a b : string) (w : bool) :
  obs ≡ₚ obs' → count_specific obs c e a b w = count_specific obs' c e a b w.
Proof.
  intros Hperm. unfold count_specific. apply count_general_Permutation.
  by rewrite Hperm.
Qed.

(** X5.  The scores of a brain trained from empty memories do not depend on
    the order in which the files are read: two corpora with the same files in
    another order give every edge of the general and of the specific memory
    the same score.  (The order only decides where keys sit in the
    dictionaries, hence how ties are broken.) *)
Theorem train_file_order (item_data : catalog)
    (files files' : list match_file) (c e a b : string) :
  files ≡ₚ files' →
  (general_edge
     (MarkovTrainer.general_memory
        (MarkovTrainer.train (MarkovTrainer.init item_data) files)) c a b
   == general_edge
        (MarkovTrainer.general_memory
           (MarkovTrainer.train (MarkovTrainer.init item_data) files'))
        c a b)%Q
  ∧ (specific_edge
       (MarkovTrainer.specific_memory
          (MarkovTrainer.train (MarkovTrainer.init item_data) files)) c e a b
     == specific_edge
          (MarkovTrainer.specific_memory
             (MarkovTrainer.train (MarkovTrainer.init item_data) files'))
          c e a b)%Q.
Proof.
  intros Hperm.
  pose proof (observations_Permutation item_data _ _ Hperm) as Hobs.
  split.
  - rewrite !trained_general_edge. cbn zeta.
    by rewrite !(count_general_Permutation _ _ c a b _ Hobs).
  - rewrite !trained_specific_edge. cbn zeta.
    by rewrite !(count_specific_Permutation _ _ c e a b _ Hobs).
Qed.

Lemma train_file_order_witness :
  [Demo.match_a; Demo.match_b] ≡ₚ [Demo.match_b; Demo.match_a]
  ∧ (general_edge
       (MarkovTrainer.general_memory
          (MarkovTrainer.train (MarkovTrainer.init Demo.item_data)
             [Demo.match_a; Demo.match_b])) "Garen" START "2001"
     == general_edge
          (MarkovTrainer.general_memory
             (MarkovTrainer.train (MarkovTrainer.init Demo.item_data)
                [Demo.match_b; Demo.match_a])) "Garen" START "2001")%Q.
Proof.
  split; [apply perm_swap|].
  apply (train_file_order Demo.item_data
           [Demo.match_a; Demo.match_b] [Demo.match_b; Demo.match_a]
           "Garen" "Darius" START "2001"), perm_swap.
Defined.

(** ** The specific memory within the general one *)

Lemma times_le (n m : nat) : (n ≤ m)%nat → (times n <= times m)%Q.
Proof. intros Hle. unfold times, Qle. simpl. lia. Qed.

Lemma count_specific_le (obs : list observation) (c e a b : string)
    (w : bool) :
  (count_specific obs c e a b w ≤ count_general obs c a b w)%nat.
Proof.
  induction obs as [|o obs IH]; [done|].
  rewrite count_specific_cons, count_general_cons, count_specific_one.
  destruct (decide (obs_enemy o = e)); lia.
Qed.

Lemma general_stored_key (g : general_table) (c a b : string) :
  is_Some (general_stored g c a b) → is_Some (get g c).
Proof.
  unfold general_stored, stored, getitem_default.
  unfold general_table, transitions, successors in *.
  destruct (get g c) as [t|]; [by eexists|]. simpl. by intros [? ?].
Qed.

Lemma trained_specific_le (item_data : catalog) (files : list match_file)
    (c e a b : string) :
  let brain := MarkovTrainer.train (MarkovTrainer.init item_data) files in
  (specific_edge (MarkovTrainer.specific_memory brain) c e a b
   <= general_edge (MarkovTrainer.general_memory brain) c a b)%Q.
Proof.
  intros brain.
  pose proof (trained_general_edge item_data files c a b) as Hg.
  pose proof (trained_specific_edge item_data files c e a b) as Hs.
  cbn zeta in Hg, Hs. fold brain in Hg, Hs. rewrite Hg, Hs.
  pose proof (times_le _ _ (count_specific_le (observations item_data files)
                              c e a b true)).
  pose proof (times_le _ _ (count_specific_le (observations item_data files)
                              c e a b false)).
  lra.
Qed.

Lemma trained_matchup_ok (item_data : catalog) (files : list match_file)
    (c e : string) :
  let brain := MarkovTrainer.train (MarkovTrainer.init item_data) files in
  transitions_ok item_data
    (matchup_table (MarkovTrainer.specific_memory brain) c e).
Proof.
  intros brain. destruct (trained_ok item_data files) as [Hsok _].
  fold brain in Hsok. apply transitions_ok_default. intros e' t Hin.
  pose proof (getitem_default_elem_of _ _ _ Hin) as Hrow.
  by apply (Hsok _ _ _ _ Hrow Hin).
Qed.

Lemma trained_specific_stored_general (item_data : catalog)
    (files : list match_file) (c e a b : string) :
  let brain := MarkovTrainer.train (MarkovTrainer.init item_data) files in
  is_Some (specific_stored (MarkovTrainer.specific_memory brain) c e a b) →
  is_Some (general_stored (MarkovTrainer.general_memory brain) c a b).
Proof.
  intros brain Hstored.
  destruct (trained_ok item_data files) as [_ Hgok]. fold brain in Hgok.
  apply (stored_iff_pos item_data _ a b (trained_matchup_ok _ files c e))
    in Hstored.
  apply (stored_iff_pos item_data); [by apply transitions_ok_default|].
  eapply Qlt_le_trans; [exact Hstored|].
  apply (trained_specific_le item_data files c e a b).
Qed.

(** X6.  Both memories are updated by the same pair of statements, so after
    training from empty memories the specific memory sits inside the general
    one: the score of an edge for a champion against one enemy never exceeds
    the score of that edge for the champion in general, and an edge stored
    for some matchup is stored for the champion in general.  (It is what
    lets [recommend_build] of [marko.py] stop when the general table is
    missing.) *)
Theorem specific_within_general (item_data : catalog)
    (files : list match_file) (c e a b : string) :
  let brain := MarkovTrainer.train (MarkovTrainer.init item_data) files in
  (specific_edge (MarkovTrainer.specific_memory brain) c e a b
   <= general_edge (MarkovTrainer.general_memory brain) c a b)%Q
  ∧ (is_Some (specific_stored (MarkovTrainer.specific_memory brain) c e a b) →
     is_Some (general_stored (MarkovTrainer.general_memory brain) c a b)
     ∧ is_Some (get (MarkovTrainer.general_memory brain) c)).
Proof.
  intros brain. split.
  - apply trained_specific_le.
  - intros Hstored.
    apply (trained_specific_stored_general item_data files) in Hstored.
    split; [done|]. by eapply general_stored_key.
Qed.

(** ** The scores that are stored *)

Lemma times_scale (wins losses : nat) :
  (2 * (3 * times wins + (1 # 2) * times losses)
   == times (6 * wins + losses))%Q.
Proof.
  unfold times.
  rewrite Nat2Z.inj_add, Nat2Z.inj_mul, inject_Z_plus, inject_Z_mult.
  change (inject_Z (Z.of_nat 6)) with 6%Q. ring.
Qed.

(** X7.  Every score stored after training from empty memories is a whole,
    non-zero number of halves: twice the score is the positive integer
    6 * wins + losses of the build sequences taking the edge.  (Each score is
    a sum of [3.0] and [0.5], which binary floating point adds exactly.) *)
Theorem stored_scores_are_halves (item_data : catalog)
    (files : list match_file) (c e a b : string) :
  let brain := MarkovTrainer.train (MarkovTrainer.init item_data) files in
  let obs := observations item_data files in
  (∀ q, general_stored (MarkovTrainer.general_memory brain) c a b = Some q →
        let n := (6 * count_general obs c a b true
                  + count_general obs c a b false)%nat in
        (1 ≤ n)%nat ∧ (2 * q == times n)%Q)
  ∧ (∀ q, specific_stored (MarkovTrainer.specific_memory brain) c e a b
          = Some q →
          let n := (6 * count_specific obs c e a b true
                    + count_specific obs c e a b false)%nat in
          (1 ≤ n)%nat ∧ (2 * q == times n)%Q).
Proof.
  intros brain obs.
  destruct (trained_ok item_data files) as [Hsok Hgok]. fold brain in Hsok, Hgok.
  split.
  - intros q Hq n.
    pose proof (trained_general_edge item_data files c a b) as Hg.
    cbn zeta in Hg. fold brain obs in Hg.
    assert (general_edge (MarkovTrainer.general_memory brain) c a b = q) as Hedge.
    { unfold general_edge. rewrite edge_stored.
      unfold general_stored in Hq. by rewrite Hq. }
    rewrite Hedge in Hg. split.
    + assert (0 < q)%Q as Hpos.
      { eapply (stored_pos item_data); [|exact Hq].
        by apply transitions_ok_default. }
      rewrite Hg in Hpos. apply score_pos_iff in Hpos. unfold n. lia.
    + unfold n. by rewrite <- times_scale, Hg.
  - intros q Hq n.
    pose proof (trained_specific_edge item_data files c e a b) as Hs.
    cbn zeta in Hs. fold brain obs in Hs.
    assert (specific_edge (MarkovTrainer.specific_memory brain) c e a b = q)
      as Hedge.
    { unfold specific_edge. rewrite edge_stored.
      unfold specific_stored in Hq. by rewrite Hq. }
    rewrite Hedge in Hs. split.
    + assert (0 < q)%Q as Hpos.
      { eapply (stored_pos item_data); [|exact Hq].
        apply transitions_ok_default. intros e' t Hin.
        pose proof (getitem_default_elem_of _ _ _ Hin) as Hrow.
        by apply (Hsok _ _ _ _ Hrow Hin). }
      rewrite Hs in Hpos. apply score_pos_iff in Hpos. unfold n. lia.
    + unfold n. by rewrite <- times_scale, Hs.
Qed.

(** ** Tables with something to offer *)

Lemma set_item_cons {V : Type} (d : list (string * V)) (k : string) (v : V) :
  ∃ first others, set_item d k v = first :: others.
Proof.
  destruct d as [|[k' v'] d]; simpl; [by eexists _, _|].
  destruct (decide (k = k')); by eexists _, _.
Qed.

Lemma add_edge_live (t : transitions) (a b : string) (w : Q) :
  a = START ∨ live t → live (add_edge t a b w).
Proof.
  intros Hstart. unfold live, add_edge.
  destruct (decide (a = START)) as [->|Hne].
  - rewrite get_set_item_eq. unfold add_score.
    destruct (set_item_cons (getitem_default [] t START) b
                (Qred (getitem_default 0%Q (getitem_default [] t START) b + w)))
      as (first & others & ->).
    by exists first, others.
  - rewrite get_set_item_ne by done. by destruct Hstart.
Qed.

Lemma general_table_learn (g : general_table) (c a b : string) (w : Q) :
  getitem_default [] (learn_general g c a b w) c
  = add_edge (getitem_default [] g c) a b w.
Proof.
  unfold learn_general. by rewrite getitem_default_set_item, decide_True.
Qed.

Lemma learn_general_live (g : general_table) (c a b : string) (w : Q) :
  general_live g →
  a = START ∨ live (getitem_default [] g c) →
  general_live (learn_general g c a b w).
Proof.
  intros Hg Hstart c' t Hin. unfold learn_general in Hin.
  apply elem_of_set_item in Hin as [Hin|[-> ->]]; [by eapply Hg|].
  by apply add_edge_live.
Qed.

Lemma learn_specific_live (s : specific_table) (c e a b : string) (w : Q) :
  specific_live s →
  a = START ∨ live (matchup_table s c e) →
  specific_live (learn_specific s c e a b w).
Proof.
  intros Hs Hstart c' m e' t Hin Hin'. unfold learn_specific in Hin.
  apply elem_of_set_item in Hin as [Hin|[-> ->]]; [by eapply Hs|].
  apply elem_of_set_item in Hin' as [Hin'|[-> ->]].
  - pose proof (getitem_default_elem_of _ _ _ Hin') as Hm.
    by apply (Hs _ _ _ _ Hm Hin').
  - by apply add_edge_live.
Qed.

Lemma learn_sequence_live (c e : string) (w : Q) (seq : list string)
    (mem : specific_table * general_table) :
  specific_live mem.1 → general_live mem.2 →
  head seq = Some START
  ∨ (live (matchup_table mem.1 c e) ∧ live (getitem_default [] mem.2 c)) →
  specific_live (learn_sequence c e w seq mem).1
  ∧ general_live (learn_sequence c e w seq mem).2.
Proof.
  revert mem. induction seq as [|x [|y rest] IH]; intros mem Hs Hg Hstart;
    [done..|].
  rewrite learn_sequence_cons2.
  assert (x = START ∨ live (matchup_table mem.1 c e)) as Hxs.
  { destruct Hstart as [[= ->]|[? _]]; auto. }
  assert (x = START ∨ live (getitem_default [] mem.2 c)) as Hxg.
  { destruct Hstart as [[= ->]|[_ ?]]; auto. }
  apply IH; cbn [fst snd].
  - by apply learn_specific_live.
  - by apply learn_general_live.
  - right. rewrite matchup_table_learn, general_table_learn.
    split; by apply add_edge_live.
Qed.

Lemma train_files_live (item_data : catalog) (files : list match_file)
    (mem : specific_table * general_table) :
  specific_live mem.1 → general_live mem.2 →
  specific_live (train_files item_data files mem).1
  ∧ general_live (train_files item_data files mem).2.
Proof.
  rewrite train_files_learn.
  pose proof (observations_build_sequences item_data files) as Hobs.
  revert mem. induction Hobs as [|o obs (l & Hseq & _) _ IH]; intros mem Hs Hg;
    [done|].
  cbn [foldl].
  destruct (learn_sequence_live (obs_champ o) (obs_enemy o)
              (weight_of (obs_win o)) (obs_sequence o) mem Hs Hg) as [Hs' Hg'].
  { left. by rewrite Hseq. }
  by apply IH.
Qed.

Lemma trained_live (item_data : catalog) (files : list match_file) :
  let brain := MarkovTrainer.train (MarkovTrainer.init item_data) files in
  specific_live (MarkovTrainer.specific_memory brain)
  ∧ general_live (MarkovTrainer.general_memory brain).
Proof.
  apply train_files_live.
  - by intros c m e t ?%elem_of_nil.
  - by intros c t ?%elem_of_nil.
Qed.

Lemma walk_rounds_extends (choose : transitions → walk → option (string * Q))
    (item_data : catalog) (t : transitions) (first rounds : nat) (w : walk) :
  ∃ l, build_path (walk_rounds choose item_data t first rounds w)
       = build_path w ++ l.
Proof.
  revert first w. induction rounds as [|rounds IH]; intros first w; simpl.
  - exists []. by rewrite app_nil_r.
  - destruct (choose t w) as [[b s]|].
    + destruct (IH (S first) (advance item_data first w b s)) as [l ->].
      simpl. exists (b :: l). by rewrite <- app_assoc.
    + exists []. by rewrite app_nil_r.
Qed.

Lemma walk_rounds_S (choose : transitions → walk → option (string * Q))
    (item_data : catalog) (t : transitions) (first rounds : nat) (w : walk) :
  walk_rounds choose item_data t first (S rounds) w
  = match choose t w with
    | None => w
    | Some (best_next, score) =>
        walk_rounds choose item_data t (S first) rounds
          (advance item_data first w best_next score)
    end.
Proof. reflexivity. Qed.

Lemma markov_choose_start (t : transitions) (first : string * Q)
    (others : list (string * Q)) :
  get t START = Some (first :: others) →
  MarkovTrainer.choose t start_walk = Some (max_item first others).
Proof.
  intros Hget. unfold MarkovTrainer.choose. cbn [current_item start_walk].
  rewrite Hget. cbn [visited]. rewrite bool_decide_false; [done|].
  apply not_elem_of_nil.
Qed.

Lemma markov_walk_live (item_data : catalog) (t : transitions) :
  live t →
  ∃ b rest,
    build_path (MarkovTrainer.walk_loop item_data t 1 6 start_walk)
    = b :: rest.
Proof.
  intros (first & others & Hget).
  unfold MarkovTrainer.walk_loop. rewrite walk_rounds_S.
  rewrite (markov_choose_start t first others Hget).
  destruct (max_item first others) as [b s].
  destruct (walk_rounds_extends MarkovTrainer.choose item_data t 2 5
              (advance item_data 1 start_walk b s)) as [l ->].
  simpl. by exists b, l.
Qed.

Lemma use_specific_live (specific_data : option transitions) :
  MarkovTrainer.use_specific specific_data = true →
  ∃ sd, specific_data = Some sd ∧ live sd.
Proof.
  destruct specific_data as [sd|]; [|done]. simpl.
  intros [_ Hrow]%andb_true_iff. exists sd. split; [done|].
  unfold live. unfold getitem_default in Hrow.
  unfold transitions, successors in *.
  destruct (get sd START) as [[|first others]|]; simpl in Hrow;
    [done| |done].
  by exists first, others.
Qed.

Lemma live_nonempty (t : transitions) : live t → truthy t = true.
Proof. intros (first & others & Hget). by destruct t. Qed.

Lemma recommend_build_live (self : MarkovTrainer.brain) (my_champ : string)
    (enemy_champ : option string) (t : transitions) :
  MarkovTrainer.select_transitions self my_champ enemy_champ = Some t →
  live t →
  ∃ b rest,
    MarkovTrainer.returned
      (MarkovTrainer.recommend_build self my_champ enemy_champ)
    = Some (b :: rest).
Proof.
  intros Hsel Hlive. unfold MarkovTrainer.recommend_build. rewrite Hsel.
  rewrite (live_nonempty t Hlive). cbn [negb MarkovTrainer.returned].
  destruct (markov_walk_live (MarkovTrainer.item_data self) t Hlive)
    as (b & rest & ->).
  by exists b, rest.
Qed.

Lemma matchup_start_stored (s : specific_table) (c e : string)
    (sd : transitions) (k : string) (q : Q) (others : list (string * Q)) :
  get (getitem_default [] s c) e = Some sd →
  get sd START = Some ((k, q) :: others) →
  is_Some (specific_stored s c e START k).
Proof.
  unfold specific_stored, stored, getitem_default.
  unfold specific_table, transitions, successors in *.
  intros H1 H2. rewrite H1. simpl. rewrite H2. simpl.
  rewrite decide_True by done. by eexists.
Qed.

(** X8.  On a brain trained from empty memories, a query answers [None]
    exactly when the champion is no key of the general memory, whatever the
    opponent; for every champion the general memory knows, it returns a list
    with at least one item. *)
Theorem trained_query_answers (item_data : catalog) (files : list match_file)
    (my_champ : string) (enemy_champ : option string) :
  let brain := MarkovTrainer.train (MarkovTrainer.init item_data) files in
  let r := MarkovTrainer.recommend_build brain my_champ enemy_champ in
  (MarkovTrainer.returned r = None
   ↔ get (MarkovTrainer.general_memory brain) my_champ = None)
  ∧ (is_Some (get (MarkovTrainer.general_memory brain) my_champ) →
     ∃ b rest, MarkovTrainer.returned r = Some (b :: rest)).
Proof.
  intros brain r.
  destruct (trained_live item_data files) as [Hs Hg]. fold brain in Hs, Hg.
  destruct (MarkovTrainer.use_specific
              (MarkovTrainer.specific_data_of brain my_champ enemy_champ))
    eqn:Huse.
  - destruct (use_specific_live _ Huse) as (sd & Hsd & Hlive).
    assert (MarkovTrainer.select_transitions brain my_champ enemy_champ
            = Some sd) as Hsel.
    { unfold MarkovTrainer.select_transitions. by rewrite Huse. }
    destruct (recommend_build_live brain my_champ enemy_champ sd Hsel Hlive)
      as (b & rest & Hr).
    fold r in Hr.
    assert (is_Some (get (MarkovTrainer.general_memory brain) my_champ))
      as Hkey.
    { unfold MarkovTrainer.specific_data_of in Hsd.
      destruct enemy_champ as [enemy|]; [|done]. simpl in Hsd.
      destruct Hlive as ([k q] & others & Hstart).
      eapply general_stored_key.
      apply (trained_specific_stored_general item_data files my_champ enemy
               START k).
      by eapply matchup_start_stored. }
    split.
    + rewrite Hr. split; [done|]. intros Hnone. rewrite Hnone in Hkey.
      by destruct Hkey.
    + intros _. by exists b, rest.
  - assert (MarkovTrainer.select_transitions brain my_champ enemy_champ
            = get (MarkovTrainer.general_memory brain) my_champ) as Hsel.
    { unfold MarkovTrainer.select_transitions. by rewrite Huse. }
    destruct (get (MarkovTrainer.general_memory brain) my_champ) as [t|]
      eqn:Hget.
    + assert (live t) as Hlive.
      { apply (Hg my_champ). by apply get_Some_elem_of. }
      destruct (recommend_build_live brain my_champ enemy_champ t Hsel Hlive)
        as (b & rest & Hr).
      fold r in Hr. split; [by rewrite Hr|]. intros _. by exists b, rest.
    + split; [|by intros [? ?]]. split; [done|]. intros _.
      unfold r, MarkovTrainer.recommend_build. by rewrite Hsel.
Qed.

(** ** How ties are broken *)

Lemma Qltb_lt (a b : Q) : Qltb a b = true ↔ (a < b)%Q.
Proof.
  unfold Qltb. rewrite negb_true_iff. split.
  - intros Hle. apply Qnot_le_lt. intros H%Qle_bool_iff. congruence.
  - intros Hlt. destruct (Qle_bool b a) eqn:Hle; [|done].
    apply Qle_bool_iff in Hle. by apply Qlt_not_le in Hlt.
Qed.

Lemma Qltb_ge (a b : Q) : Qltb a b = false ↔ (b <= a)%Q.
Proof.
  unfold Qltb. rewrite negb_false_iff. apply Qle_bool_iff.
Qed.

Lemma pick_assoc (x y z : string * Q) :
  pick (pick x y) z = pick x (pick y z).
Proof.
  unfold pick.
  destruct (Qltb x.2 y.2) eqn:Hxy, (Qltb y.2 z.2) eqn:Hyz;
    rewrite ?Hxy, ?Hyz; try done.
  - assert (Qltb x.2 z.2 = true) as ->; [|done].
    apply Qltb_lt. apply Qltb_lt in Hxy, Hyz. by eapply Qlt_trans.
  - assert (Qltb x.2 z.2 = false) as ->; [|done].
    apply Qltb_ge. apply Qltb_ge in Hxy, Hyz. by eapply Qle_trans.
Qed.

Lemma head_insert_desc (x : string * Q) (l : list (string * Q)) :
  head (insert_desc x l)
  = Some (match head l with None => x | Some y => pick x y end).
Proof. destruct l as [|y l]; simpl; [done|]. unfold pick. by destruct (Qltb _ _). Qed.

Lemma head_sorted_desc (l : list (string * Q)) :
  head (sorted_desc l) = first_best l.
Proof.
  induction l as [|x l IH]; [done|].
  cbn [sorted_desc foldr first_best]. fold (sorted_desc l) (first_best l).
  by rewrite head_insert_desc, IH.
Qed.

Lemma max_item_first_best (x : string * Q) (l : list (string * Q)) :
  max_item x l = match first_best l with None => x | Some y => pick x y end.
Proof.
  revert x. induction l as [|y l IH]; intros x; [done|].
  cbn [max_item first_best foldr]. fold (first_best l).
  fold (pick x y). rewrite IH.
  destruct (first_best l) as [z|]; [|done]. apply pick_assoc.
Qed.

Lemma first_unvisited_insert_desc (seen : list string) (x : string * Q)
    (l : list (string * Q)) :
  StronglySorted score_ge l →
  first_unvisited seen (insert_desc x l)
  = if bool_decide (x.1 ∈ seen) then first_unvisited seen l
    else match first_unvisited seen l with
         | None => Some x
         | Some y => Some (pick x y)
         end.
Proof.
  destruct x as [k v]. cbn [fst].
  destruct (bool_decide (k ∈ seen)) eqn:Hk.
  - induction 1 as [|[k0 v0] l Hsorted IH Hall]; cbn [insert_desc fst snd].
    + simpl. by rewrite Hk.
    + destruct (Qltb v v0).
      * cbn [first_unvisited]. rewrite IH. done.
      * cbn [first_unvisited]. by rewrite Hk.
  - induction 1 as [|[k0 v0] l Hsorted IH Hall]; cbn [insert_desc fst snd].
    + simpl. by rewrite Hk.
    + destruct (Qltb v v0) eqn:Hlt.
      * cbn [first_unvisited]. rewrite IH.
        destruct (bool_decide (k0 ∈ seen)); [done|].
        unfold pick. simpl. by rewrite Hlt.
      * cbn [first_unvisited]. rewrite Hk.
        destruct (bool_decide (k0 ∈ seen)).
        -- destruct (first_unvisited seen l) as [[k1 v1]|] eqn:Hfirst; [|done].
           unfold pick. simpl.
           assert (Qltb v v1 = false) as ->; [|done].
           apply Qltb_ge. apply Qltb_ge in Hlt.
           apply (first_unvisited_Some _ _ _ _ Hsorted) in Hfirst as [Hin _].
           rewrite Forall_forall in Hall. specialize (Hall _ Hin).
           unfold score_ge in Hall. simpl in Hall. by eapply Qle_trans.
        -- unfold pick. simpl. by rewrite Hlt.
Qed.

Lemma first_unvisited_sorted_desc (seen : list string)
    (l : list (string * Q)) :
  first_unvisited seen (sorted_desc l) = earliest_best seen l.
Proof.
  induction l as [|x l IH]; [done|].
  cbn [sorted_desc foldr earliest_best]. fold (sorted_desc l).
  by rewrite first_unvisited_insert_desc, IH by apply sorted_desc_sorted.
Qed.

Lemma first_unvisited_head (seen : list string) (l : list (string * Q))
    (x : string * Q) :
  head l = Some x → x.1 ∉ seen → first_unvisited seen l = Some x.
Proof.
  destruct l as [|[k v] l]; [done|]. intros [= <-] Hx. simpl in *.
  by rewrite bool_decide_false.
Qed.

(** Both versions of the walk choose the earliest best unvisited entry. *)
Lemma markov_choose_earliest_best (t : transitions) (w : walk) :
  MarkovTrainer.choose t w
  = next_options ← get t (current_item w);
    earliest_best (visited w) next_options.
Proof.
  unfold MarkovTrainer.choose.
  destruct (get t (current_item w)) as [[|first others]|]; [done| |done].
  cbn [mbind option_bind]. rewrite <- first_unvisited_sorted_desc.
  case_bool_decide as Hseen; [done|]. symmetry.
  apply first_unvisited_head; [|done].
  by rewrite head_sorted_desc, max_item_first_best.
Qed.

Lemma marko_choose_earliest_best (t : transitions) (w : walk) :
  Marko.choose t w
  = next_options ← get t (current_item w);
    best ← earliest_best (visited w) next_options;
    if bool_decide (best.1 = "") then None else Some best.
Proof.
  unfold Marko.choose.
  destruct (get t (current_item w)) as [next_options|]; [|done].
  cbn [mbind option_bind]. rewrite <- first_unvisited_sorted_desc.
  destruct next_options as [|first others]; [done|]. cbn [truthy negb].
  by destruct (first_unvisited _ _) as [[b s]|].
Qed.

Lemma earliest_best_None (seen : list string) (l : list (string * Q)) :
  earliest_best seen l = None ↔ ∀ k v, (k, v) ∈ l → k ∈ seen.
Proof.
  induction l as [|[k0 v0] l IH]; cbn [earliest_best fst].
  - split; [|done]. by intros _ k v ?%elem_of_nil.
  - case_bool_decide as Hk0.
    + rewrite IH. split.
      * intros Hall k v [[= -> ->]|Hin]%elem_of_cons; [done|]. by eapply Hall.
      * intros Hall k v Hin. eapply Hall. by right.
    + split; [by destruct (earliest_best seen l)|].
      intros Hall. destruct Hk0. apply (Hall k0 v0). left.
Qed.

Lemma earliest_best_Some (seen : list string) (l : list (string * Q))
    (b : string) (s : Q) :
  earliest_best seen l = Some (b, s) →
  ∃ before after,
    l = before ++ (b, s) :: after
    ∧ (b ∉ seen)
    ∧ (∀ k v, (k, v) ∈ before → k ∉ seen → (v < s)%Q)
    ∧ (∀ k v, (k, v) ∈ after → k ∉ seen → (v <= s)%Q).
Proof.
  revert b s. induction l as [|[k0 v0] l IH]; intros b s;
    cbn [earliest_best fst]; [done|].
  case_bool_decide as Hk0.
  - intros Hbest. destruct (IH b s Hbest) as (before & after & -> & ? & Hb & Ha).
    exists ((k0, v0) :: before), after. split; [done|]. split; [done|].
    split; [|done].
    intros k v [[= -> ->]|Hin]%elem_of_cons Hk; [done|]. by eapply Hb.
  - destruct (earliest_best seen l) as [[k1 v1]|] eqn:Hrest.
    + destruct (IH k1 v1 eq_refl) as (before & after & -> & ? & Hb & Ha).
      unfold pick. cbn [snd]. destruct (Qltb v0 v1) eqn:Hlt.
      * intros [= <- <-]. exists ((k0, v0) :: before), after.
        split; [done|]. split; [done|]. split; [|done].
        intros k v [[= -> ->]|Hin]%elem_of_cons Hk.
        -- by apply Qltb_lt.
        -- by eapply Hb.
      * intros [= <- <-]. apply Qltb_ge in Hlt.
        exists [], (before ++ (k1, v1) :: after).
        split; [done|]. split; [done|].
        split; [by intros k v ?%elem_of_nil|].
        intros k v Hin Hk. eapply Qle_trans; [|exact Hlt].
        apply elem_of_app in Hin as [Hin|[[= -> ->]|Hin]%elem_of_cons].
        -- apply Qlt_le_weak. by eapply Hb.
        -- apply Qle_refl.
        -- by eapply Ha.
    + intros [= <- <-]. exists [], l. split; [done|]. split; [done|].
      split; [by intros k v ?%elem_of_nil|].
      intros k v Hin Hk. destruct Hk.
      by apply (proj1 (earliest_best_None seen l) Hrest k v).
Qed.

(** X9.  A round of the walk, in either advisor, takes the unvisited
    successor with the highest score and, when several share it, the one
    that was inserted first in the dictionary: every unvisited successor
    inserted before the chosen one has a strictly lower score, every one
    inserted after it has at most its score. *)
Theorem choose_breaks_ties_by_insertion (t : transitions) (w : walk)
    (b : string) (s : Q) :
  MarkovTrainer.choose t w = Some (b, s) ∨ Marko.choose t w = Some (b, s) →
  ∃ next_options before after,
    get t (current_item w) = Some next_options
    ∧ next_options = before ++ (b, s) :: after
    ∧ (b ∉ visited w)
    ∧ (∀ k v, (k, v) ∈ before → k ∉ visited w → (v < s)%Q)
    ∧ (∀ k v, (k, v) ∈ after → k ∉ visited w → (v <= s)%Q).
Proof.
  intros Hchoose.
  assert (∃ next_options,
            get t (current_item w) = Some next_options
            ∧ earliest_best (visited w) next_options = Some (b, s))
    as (next_options & Hget & Hbest).
  { destruct Hchoose as [Hchoose|Hchoose].
    - rewrite markov_choose_earliest_best in Hchoose.
      destruct (get t (current_item w)) as [next_options|]; [|done].
      by exists next_options.
    - rewrite marko_choose_earliest_best in Hchoose.
      destruct (get t (current_item w)) as [next_options|]; [|done].
      exists next_options. split; [done|]. cbn [mbind option_bind] in Hchoose.
      destruct (earliest_best _ _) as [best|]; [|done].
      cbn [mbind option_bind] in Hchoose.
      by destruct (bool_decide (best.1 = "")); [|injection Hchoose as ->]. }
  destruct (earliest_best_Some _ _ _ _ Hbest)
    as (before & after & Heq & Hb & Hbefore & Hafter).
  by exists next_options, before, after.
Qed.

Lemma choose_breaks_ties_by_insertion_witness :
  MarkovTrainer.choose
    [("START", [("A", 1%Q); ("B", 2%Q); ("C", 2%Q)])] start_walk
  = Some ("B", 2%Q)
  ∧ ∃ next_options before after,
      get [("START", [("A", 1%Q); ("B", 2%Q); ("C", 2%Q)])]
        (current_item start_walk) = Some next_options
      ∧ next_options = before ++ ("B", 2%Q) :: after
      ∧ ("B" ∉ visited start_walk)
      ∧ (∀ k v, (k, v) ∈ before → k ∉ visited start_walk → (v < 2)%Q)
      ∧ (∀ k v, (k, v) ∈ after → k ∉ visited start_walk → (v <= 2)%Q).
Proof.
  split; [reflexivity|].
  apply (choose_breaks_ties_by_insertion
           [("START", [("A", 1%Q); ("B", 2%Q); ("C", 2%Q)])] start_walk
           "B" 2%Q).
  left. reflexivity.
Defined.

(** ** The two walks *)

Lemma walk_rounds_ext (choose choose' : transitions → walk → option (string * Q))
    (item_data : catalog) (t : transitions) (first rounds : nat) (w : walk) :
  (∀ w', choose t w' = choose' t w') →
  walk_rounds choose item_data t first rounds w
  = walk_rounds choose' item_data t first rounds w.
Proof.
  intros Hext. revert first w.
  induction rounds as [|rounds IH]; intros first w; [done|].
  rewrite !walk_rounds_S, Hext. destruct (choose' t w) as [[b s]|]; [|done].
  apply IH.
Qed.

(** X10.  On a table none of whose successors is the empty string, the walk
    of [_print_path] in [marko.py] (always sort, take the first unvisited)
    and the walk of [recommend_build] in [markov_trainer.py] (take the
    maximum, sort only when it is already visited) visit the same items in
    the same order, and hand the same rank, display name and score to the
    line they print for each item.  (The lines themselves differ in the
    words around these values.) *)
Theorem print_path_same_walk (item_data : catalog) (t : transitions) :
  Forall (λ row, "" ∉ row.2.*1) t →
  Marko._print_path item_data t
  = MarkovTrainer.walk_loop item_data t 1 6 start_walk.
Proof.
  intros Hkeys. unfold Marko._print_path, Marko.print_loop,
    MarkovTrainer.walk_loop.
  apply walk_rounds_ext. intros w.
  rewrite marko_choose_earliest_best, markov_choose_earliest_best.
  destruct (get t (current_item w)) as [next_options|] eqn:Hget; [|done].
  cbn [mbind option_bind].
  destruct (earliest_best (visited w) next_options) as [[b s]|] eqn:Hbest;
    [|done].
  cbn [mbind option_bind fst]. rewrite bool_decide_false; [done|].
  intros ->.
  destruct (earliest_best_Some _ _ _ _ Hbest) as (before & after & -> & _).
  apply get_Some_elem_of in Hget. rewrite Forall_forall in Hkeys.
  apply (Hkeys _ Hget). cbn [snd]. rewrite fmap_app, elem_of_app. right.
  left.
Qed.

Lemma print_path_same_walk_witness :
  Forall (λ row : string * successors, "" ∉ row.2.*1)
    (getitem_default [] (MarkovTrainer.general_memory Demo.trained) "Garen")
  ∧ build_path
      (Marko._print_path Demo.item_data
         (getitem_default [] (MarkovTrainer.general_memory Demo.trained)
            "Garen"))
    = ["2001"; "2002"].
Proof.
  split.
  - repeat (constructor; [by apply (bool_decide_unpack _)|]). constructor.
  - rewrite (print_path_same_walk Demo.item_data).
    + reflexivity.
    + repeat (constructor; [by apply (bool_decide_unpack _)|]). constructor.
Defined.

(** ** A catalog that could not be downloaded *)

Lemma build_sequence_empty_catalog (p : participant) :
  build_sequence_of [] p = [START].
Proof.
  unfold build_sequence_of. rewrite scan_purchases_first_occurrences.
  assert (filter (λ x, is_final_item x [] = true)
            (purchase_ids (item_purchases p)) = []) as ->; [|done].
  induction (purchase_ids (item_purchases p)) as [|x l IH]; [done|].
  by rewrite filter_cons_False.
Qed.

Lemma observations_empty_catalog (files : list match_file) :
  Forall (λ o, obs_sequence o = [START]) (observations [] files).
Proof.
  unfold observations. apply Forall_forall. intros o Ho.
  apply list_elem_of_bind in Ho as ([participants|] & Ho & _);
    [|by apply elem_of_nil in Ho].
  apply list_elem_of_fmap in Ho as (p & -> & _).
  apply build_sequence_empty_catalog.
Qed.

Lemma train_files_empty_catalog (files : list match_file)
    (mem : specific_table * general_table) :
  train_files [] files mem = mem.
Proof.
  rewrite train_files_learn.
  pose proof (observations_empty_catalog files) as Hobs.
  induction Hobs as [|o obs Ho _ IH]; [done|].
  cbn [foldl]. unfold learn at 2. by rewrite Ho.
Qed.

(** X11.  When the download of the catalog fails, [get_item_data] returns the
    empty dictionary and the advisor runs on it: no identifier is a final
    item, a training pass leaves both memories as they are (empty, after
    [__init__]), and every query on the brain so trained answers [None]. *)
Theorem failed_download_learns_nothing (files : list match_file) :
  let brain :=
    MarkovTrainer.train (MarkovTrainer.init (get_item_data None)) files in
  (∀ x, is_final_item x (get_item_data None) = false)
  ∧ (∀ self, MarkovTrainer.item_data self = get_item_data None →
             MarkovTrainer.train self files = self)
  ∧ MarkovTrainer.specific_memory brain = []
  ∧ MarkovTrainer.general_memory brain = []
  ∧ (∀ my_champ enemy_champ,
       MarkovTrainer.returned
         (MarkovTrainer.recommend_build brain my_champ enemy_champ)
       = None).
Proof.
  intros brain.
  assert (brain = MarkovTrainer.init []) as Hbrain.
  { unfold brain, MarkovTrainer.train. cbn [get_item_data MarkovTrainer.init
      MarkovTrainer.item_data MarkovTrainer.specific_memory
      MarkovTrainer.general_memory].
    by rewrite train_files_empty_catalog. }
  split; [done|]. split.
  - intros [cat s g]. cbn [MarkovTrainer.item_data get_item_data].
    intros ->. unfold MarkovTrainer.train.
    cbn [MarkovTrainer.item_data MarkovTrainer.specific_memory
      MarkovTrainer.general_memory].
    by rewrite train_files_empty_catalog.
  - rewrite Hbrain. split; [done|]. split; [done|].
    intros my_champ enemy_champ. by destruct enemy_champ.
Qed.

(** ** Loading and saving *)

(** X12.  [load_brain] returns [True] exactly when the file exists, parses,
    and is an object with both a ["specific"] and a ["general"] entry; the
    memories are then those two entries.  It never changes the catalog, and
    when it returns [False] the general memory is the one it had. *)
Theorem load_brain_outcome (self : Marko.brain) (file : Marko.brain_file) :
  ((Marko.load_brain self file).1 = true
   ↔ ∃ data s g,
       file = Marko.Present (Some data)
       ∧ Marko.subscript data "specific" = Some s
       ∧ Marko.subscript data "general" = Some g)
  ∧ (∀ data s g,
       file = Marko.Present (Some data) →
       Marko.subscript data "specific" = Some s →
       Marko.subscript data "general" = Some g →
       Marko.specific_memory (Marko.load_brain self file).2 = s
       ∧ Marko.general_memory (Marko.load_brain self file).2 = g)
  ∧ Marko.item_data (Marko.load_brain self file).2 = Marko.item_data self
  ∧ ((Marko.load_brain self file).1 = false →
     Marko.general_memory (Marko.load_brain self file).2
     = Marko.general_memory self).
Proof.
  destruct file as [|[data|]].
  - split; [|by repeat split]. split; [done|]. by intros (? & ? & ? & ? & _).
  - destruct (Marko.subscript data "specific") as [s|] eqn:Hs.
    + destruct (Marko.subscript data "general") as [g|] eqn:Hg.
      * simpl. rewrite Hs, Hg. simpl. split.
        { split; [|done]. intros _. by exists data, s, g. }
        split; [|done]. intros data' s' g' [= <-]. rewrite Hs, Hg.
        by intros [= <-] [= <-].
      * simpl. rewrite Hs, Hg. simpl. split.
        { split; [done|]. intros (data' & s' & g' & [= <-] & _ & Hg').
          rewrite Hg in Hg'. done. }
        split; [|done]. intros data' s' g' [= <-] _ Hg'.
        rewrite Hg in Hg'. done.
    + simpl. rewrite Hs. simpl. split.
      { split; [done|]. intros (data' & s' & g' & [= <-] & Hs' & _).
        rewrite Hs in Hs'. done. }
      split; [|done]. intros data' s' g' [= <-] Hs'.
      rewrite Hs in Hs'. done.
  - split; [|by repeat split]. split; [done|]. by intros (? & ? & ? & ? & _).
Qed.

(** X13.  What [train] of [marko.py] saves, a fresh advisor with the same
    catalog loads back: [load_brain] on the file written at the end of
    [train] returns [True] and leaves exactly the memories [train] left, and
    saving again writes the same file. *)
Theorem train_save_load (self : Marko.brain) (files : list match_file) :
  let trained := (Marko.train self files).1 in
  let file := (Marko.train self files).2 in
  let fresh := Marko.init (Marko.item_data self) in
  Marko.load_brain fresh file = (true, trained)
  ∧ Marko.save_brain (Marko.load_brain fresh file).2 = file
  ∧ Marko.specific_memory trained
    = Marko.json_of_specific
        (train_files (Marko.item_data self) files ([], [])).1
  ∧ Marko.general_memory trained
    = Marko.json_of_general
        (train_files (Marko.item_data self) files ([], [])).2.
Proof.
  intros trained file fresh.
  assert (Marko.load_brain fresh file = (true, trained)) as Hload.
  { unfold file, trained, Marko.train. cbn [fst snd].
    unfold Marko.save_brain.
    cbn [Marko.specific_memory Marko.general_memory].
    by rewrite load_brain_success. }
  split; [done|]. rewrite Hload. by repeat split.
Qed.

(** ** Asking twice *)

Lemma getitem_default_touch {V : Type} (dflt : V) (d : list (string * V))
    (k k' : string) :
  getitem_default dflt (touch dflt d k) k' = getitem_default dflt d k'.
Proof.
  unfold touch, getitem_default.
  destruct (get d k) as [v|] eqn:Hget; [done|].
  induction d as [|[k0 v0] d IH]; simpl in *.
  - destruct (decide (k' = k)) as [->|]; [|done]. done.
  - destruct (decide (k = k0)); [done|].
    destruct (decide (k' = k0)); [done|]. by apply IH.
Qed.

Lemma touch_touch {V : Type} (dflt : V) (d : list (string * V)) (k : string) :
  touch dflt (touch dflt d k) k = touch dflt d k.
Proof. eapply touch_present, get_touch_eq. Qed.

Lemma truthy_touch {V : Type} (dflt : V) (d : list (string * V)) (k : string) :
  truthy d = true → truthy (touch dflt d k) = true.
Proof. unfold touch. destruct (get d k); [done|]. by destruct d. Qed.

Lemma specific_after_reads_stable (self : MarkovTrainer.brain)
    (my_champ : string) (enemy_champ : option string) :
  let self' :=
    {| MarkovTrainer.item_data := MarkovTrainer.item_data self;
       MarkovTrainer.specific_memory :=
         MarkovTrainer.specific_after_reads self my_champ enemy_champ;
       MarkovTrainer.general_memory := MarkovTrainer.general_memory self |} in
  MarkovTrainer.specific_after_reads self' my_champ enemy_champ
  = MarkovTrainer.specific_memory self'
  ∧ MarkovTrainer.select_transitions self' my_champ enemy_champ
    = MarkovTrainer.select_transitions self my_champ enemy_champ.
Proof.
  intros self'. subst self'.
  unfold MarkovTrainer.select_transitions, MarkovTrainer.specific_data_of,
    MarkovTrainer.specific_after_reads.
  cbn [MarkovTrainer.specific_memory MarkovTrainer.general_memory].
  set (s := MarkovTrainer.specific_memory self).
  rewrite !(getitem_default_touch [] s).
  set (row := getitem_default [] s my_champ).
  destruct enemy_champ as [enemy|]; cbn [mbind option_bind].
  2:{ by rewrite touch_touch. }
  destruct (get row enemy) as [sd|] eqn:Hsd.
  2:{ rewrite touch_touch, (getitem_default_touch [] s). fold row.
      by rewrite Hsd. }
  destruct (truthy sd) eqn:Htruthy.
  2:{ rewrite touch_touch, (getitem_default_touch [] s). fold row.
      by rewrite Hsd, Htruthy. }
  set (sd' := touch [] sd START).
  set (row' := set_item row enemy sd').
  set (s2 := set_item (touch [] s my_champ) my_champ row').
  assert (get s2 my_champ = Some row') as Hrow' by apply get_set_item_eq.
  assert (get row' enemy = Some sd') as Hsd' by apply get_set_item_eq.
  assert (truthy sd' = true) as Htruthy' by by apply truthy_touch.
  assert (getitem_default [] s2 my_champ = row') as Hrow2.
  { unfold getitem_default. by rewrite Hrow'. }
  rewrite (touch_present _ _ _ _ Hrow'), Hrow2, Hsd'. cbv beta iota.
  unfold specific_table, general_table, transitions, successors in *.
  rewrite Htruthy'.
  assert (touch [] sd' START = sd') as -> by apply touch_touch.
  rewrite (set_item_same row' enemy sd' Hsd').
  rewrite (set_item_same s2 my_champ row' Hrow').
  split; [done|].
  cbn [MarkovTrainer.use_specific].
  unfold specific_table, general_table, transitions, successors in *.
  rewrite Htruthy, Htruthy'.
  assert (getitem_default [] sd' START = getitem_default [] sd START) as ->
    by apply getitem_default_touch.
  cbn [andb].
  destruct (truthy (getitem_default [] sd START)) eqn:Hstart; [|done].
  f_equal. unfold sd', touch. unfold getitem_default in Hstart.
  unfold transitions, successors in *.
  by destruct (get sd START).
Qed.

Lemma recommend_build_after (self : MarkovTrainer.brain) (my_champ : string)
    (enemy_champ : option string) :
  MarkovTrainer.after (MarkovTrainer.recommend_build self my_champ enemy_champ)
  = {| MarkovTrainer.item_data := MarkovTrainer.item_data self;
       MarkovTrainer.specific_memory :=
         MarkovTrainer.specific_after_reads self my_champ enemy_champ;
       MarkovTrainer.general_memory := MarkovTrainer.general_memory self |}.
Proof.
  unfold MarkovTrainer.recommend_build.
  destruct (MarkovTrainer.select_transitions _ _ _) as [t|]; [|done].
  by destruct (negb (truthy t)).
Qed.

(** X14.  Asking the same question twice gives the same answer, and the
    second query changes nothing: whatever the first query inserted in the
    specific memory (the champion, a [START] row) is there already. *)
Theorem recommend_build_twice (self : MarkovTrainer.brain)
    (my_champ : string) (enemy_champ : option string) :
  let first := MarkovTrainer.recommend_build self my_champ enemy_champ in
  let second :=
    MarkovTrainer.recommend_build (MarkovTrainer.after first)
      my_champ enemy_champ in
  MarkovTrainer.returned second = MarkovTrainer.returned first
  ∧ MarkovTrainer.output second = MarkovTrainer.output first
  ∧ MarkovTrainer.after second = MarkovTrainer.after first.
Proof.
  intros first second.
  destruct (specific_after_reads_stable self my_champ enemy_champ)
    as [Hstable Hselect].
  cbn zeta in Hstable, Hselect.
  subst first second. rewrite (recommend_build_after self).
  unfold MarkovTrainer.recommend_build.
  rewrite Hselect, Hstable.
  cbn [MarkovTrainer.item_data MarkovTrainer.specific_memory
    MarkovTrainer.general_memory].
  destruct (MarkovTrainer.select_transitions self _ _) as [t|]; [|done].
  by destruct (negb (truthy t)).
Qed.

(** X15.  On a brain trained from empty memories, a query about a champion
    that is a key of the specific memory is a pure read: the brain after the
    query is the brain before it, whoever the opponent. *)
Theorem trained_query_reads_only (item_data : catalog)
    (files : list match_file) (my_champ : string)
    (enemy_champ : option string) :
  let brain := MarkovTrainer.train (MarkovTrainer.init item_data) files in
  is_Some (get (MarkovTrainer.specific_memory brain) my_champ) →
  MarkovTrainer.after
    (MarkovTrainer.recommend_build brain my_champ enemy_champ)
  = brain.
Proof.
  intros brain Hkey. apply recommend_build_known_champion; [|done].
  apply trained_started.
Qed.

Lemma trained_query_reads_only_witness :
  is_Some (get (MarkovTrainer.specific_memory
                  (MarkovTrainer.train (MarkovTrainer.init Demo.item_data)
                     Demo.corpus)) "Garen")
  ∧ MarkovTrainer.after
      (MarkovTrainer.recommend_build
         (MarkovTrainer.train (MarkovTrainer.init Demo.item_data) Demo.corpus)
         "Garen" (Some "Darius"))
    = MarkovTrainer.train (MarkovTrainer.init Demo.item_data) Demo.corpus.
Proof.
  split; [by eexists|].
  apply (trained_query_reads_only Demo.item_data Demo.corpus "Garen"
           (Some "Darius")).
  by eexists.
Defined.

(** ** The scores that are printed *)

Lemma last_cons (x d : string) (l : list string) :
  List.last (x :: l) d = List.last l x.
Proof.
  revert x d. induction l as [|y l IH]; intros x d; [done|].
  change (List.last (x :: y :: l) d) with (List.last (y :: l) d).
  by rewrite (IH y d), (IH y x).
Qed.

Lemma scored_from_snoc (t : transitions) (prev : string) (path : list string)
    (scores : list Q) (b : string) (s : Q) (row : successors) :
  scored_from t prev path scores →
  get t (List.last path prev) = Some row → (b, s) ∈ row →
  scored_from t prev (path ++ [b]) (scores ++ [s]).
Proof.
  revert prev scores. induction path as [|x path IH]; intros prev scores.
  - destruct scores; [|done]. intros _ Hget Hin. simpl in *.
    split; [by exists row|done].
  - destruct scores as [|q scores]; [done|]. intros [Hstep Hrest] Hget Hin.
    cbn [app scored_from]. split; [done|]. apply IH; [done| |done].
    by rewrite <- (last_cons x prev).
Qed.

Lemma walk_rounds_scored (choose : transitions → walk → option (string * Q))
    (item_data : catalog) (t : transitions) (first rounds : nat) (w : walk) :
  (∀ w' b s, choose t w' = Some (b, s) →
             ∃ next_options, get t (current_item w') = Some next_options
                             ∧ best_unvisited next_options (visited w') b s) →
  current_item w = reached (build_path w) →
  scored_from t START (build_path w) (printed w).*2 →
  scored_from t START
    (build_path (walk_rounds choose item_data t first rounds w))
    (printed (walk_rounds choose item_data t first rounds w)).*2.
Proof.
  intros Hsound. revert first w.
  induction rounds as [|rounds IH]; intros first w Hcur Hscored; [done|].
  rewrite walk_rounds_S. destruct (choose t w) as [[b s]|] eqn:Hchoose; [|done].
  destruct (Hsound w b s Hchoose) as (row & Hget & Hin & _).
  apply IH.
  - simpl. by rewrite reached_snoc.
  - simpl. rewrite fmap_app. simpl.
    eapply scored_from_snoc; [done| |done].
    rewrite Hcur in Hget. exact Hget.
Qed.

(** X16.  The score handed to the format of a printed line (which shows it
    rounded to one decimal) is a score of the table: the value formatted on
    line [i] of a query is a score stored for the [i]-th item returned in the
    row of the item before it (of [START] for the first line).  The same
    holds of the values formatted by [_print_path]. *)
Theorem printed_scores_are_stored :
  (∀ (self : MarkovTrainer.brain) (my_champ : string)
     (enemy_champ : option string) (t : transitions) (path : list string),
     MarkovTrainer.select_transitions self my_champ enemy_champ = Some t →
     MarkovTrainer.returned
       (MarkovTrainer.recommend_build self my_champ enemy_champ) = Some path →
     scored_from t START path
       (MarkovTrainer.output
          (MarkovTrainer.recommend_build self my_champ enemy_champ)).*2)
  ∧ (∀ (item_data : catalog) (t : transitions),
       scored_from t START (build_path (Marko._print_path item_data t))
         (printed (Marko._print_path item_data t)).*2).
Proof.
  split.
  - intros self my_champ enemy_champ t path Hsel.
    unfold MarkovTrainer.recommend_build. rewrite Hsel.
    destruct t as [|row t]; [done|].
    cbn [truthy negb MarkovTrainer.returned MarkovTrainer.output].
    intros [= <-].
    by apply (walk_rounds_scored MarkovTrainer.choose _ _ 1 6 start_walk
                (markov_choose_Some (row :: t))).
  - intros item_data t.
    by apply (walk_rounds_scored Marko.choose _ _ 1 6 start_walk
                (marko_choose_Some t)).
Qed.

(** * The scores of a trained brain, counted on the match files *)

(** ** The purchase loop against the purchases of the file *)





(** ** The opponent scan against the records of the match *)



(** ** The participants a pass learns from *)









(** Where a final item is sold that was never bought, the corpus is outside
    what follows, and the sale is part of no build sequence. *)
Example sale_without_purchase :
  corpus_purchases_first Demo.item_data [Some Demo.seller] = false
  ∧ sequences_taking Demo.item_data [Some Demo.seller] "Garen" START "2001"
      true = 0%nat.
Proof. split; reflexivity. Qed.


